(** * simpletcpunixrelay: a relay between TCP and Unix sockets

    Shallow embedding of the relay's Go code and the properties its
    specification states about it.

    The repository holds two variants of the program:
    - [src/main.go], which threads a [context.Context] through the proxy and
      closes the two connections of a pair from goroutines that wait on the
      pair's context ([Module MainGo]);
    - [src/unnamed/part_001], the variant without contexts, which closes the
      connections with [defer] and removes the socket file on exit
      ([Module Part001]).
    [isUnixSocket], [handleError], [proxy.run] and [proxy.accept] are the same
    in both and are embedded once.

    Goroutines are modelled by an interleaving semantics: every goroutine is
    a small program-counter machine, an event names the goroutine that moves
    (or what the environment does: a peer writes, a dial fails), and a step
    runs that goroutine up to its next blocking operation.  The step
    functions are executable, so concrete schedules can be evaluated. *)

From stdpp Require Import base list strings.
From Stdlib Require Import Strings.Ascii Strings.Byte ZArith Lia.
Open Scope string_scope.
Open Scope list_scope.

(* ===================================================================== *)
(** * Part I: the model *)
(* ===================================================================== *)

(** ** The parts of Go's library the program relies on *)

Module GoLib.

(** [strings.Contains(s, substr)]: [substr] occurs in [s] at some offset. *)
Fixpoint strings_Contains (s substr : string) : bool :=
  String.prefix substr s
  || match s with
     | EmptyString => false
     | String _ s' => strings_Contains s' substr
     end.

(** Go's [error] values.  A nil error is [None : option error].
    [ErrWrap] is what [fmt.Errorf("...%w", err)] builds. *)
Inductive error : Type :=
| ErrMsg (msg : string)
| ErrWrap (prefix : string) (cause : error).

(** [errors.Unwrap]. *)
Definition Unwrap (e : error) : option error :=
  match e with
  | ErrMsg _ => None
  | ErrWrap _ cause => Some cause
  end.

(** One call of [log.Printf]: the format and its argument. *)
Inductive logarg : Type :=
| ArgErr (e : option error)
| ArgStr (s : string).

Inductive logline : Type :=
| Printf (format : string) (a : logarg).

(** The error a [Read] or [Write] returns on a connection this process
    has closed. *)
Definition ErrClosed : error := ErrMsg "use of closed network connection".

(** [sync.WaitGroup.Done]: panics on a zero counter. *)
Definition wg_Done (n : nat) : option nat :=
  match n with
  | O => None
  | S m => Some m
  end.

End GoLib.
Export GoLib.

(** ** Functions shared by both variants *)

(** [logError(format, a...)]: [log.Printf("ERROR: %s\n", fmt.Sprintf(format, a...))]. *)
Definition logError (format : string) (a : logarg) : logline :=
  Printf ("ERROR: " ++ format) a.

(** [isUnixSocket(addr)]: [strings.Contains(addr, "/")]. *)
Definition isUnixSocket (addr : string) : bool :=
  strings_Contains addr "/".

(** The [network] that [getSourceListener] and the connector pass to
    [net.Listen] and [net.Dial]. *)
Definition network_of (addr : string) : string :=
  if isUnixSocket addr then "unix" else "tcp".

(** [proxy.handleError(err)], on the field [p.err] and the log.  The mutex
    makes the body atomic.
<<
      if p.err == nil { log.Printf("ERROR: ignored error: %v", err); return }
      p.err = err
>> *)
Definition handleError (err : option error) (p_err : option error)
  : option error * list logline :=
  match p_err with
  | None => (None, [Printf "ERROR: ignored error: %v" (ArgErr err)])
  | Some _ => (err, [])
  end.

(** A sequence of calls of [handleError], one after the other. *)
Fixpoint handleErrors (errs : list (option error)) (p_err : option error)
  : option error * list logline :=
  match errs with
  | [] => (p_err, [])
  | e :: errs' =>
      let '(p_err', l) := handleError e p_err in
      let '(p_err'', l') := handleErrors errs' p_err' in
      (p_err'', (l ++ l')%list)
  end.

(** The error [proxy.accept] returns when [Accept] fails with [err]. *)
Definition accept_error (err : error) : error :=
  ErrWrap "could not listener.Accept(): " err.

(** ** The two connections of a pair and [io.Copy] between them *)

Module Splice.

(** [Fwd] is [io.Copy(out, in)], from the accepted connection to the
    dialed one; [Back] is [io.Copy(in, out)]. *)
Inductive dir : Type := Fwd | Back.

(** One direction of a pair: what the writing peer has written so far,
    whether it has closed its writing side, and what the relay has written
    to the reading peer's connection. *)
Record stream : Type := Stream {
  sent : list byte;
  eof : bool;
  delivered : list byte
}.

(** Bytes written by the peer that the relay has not read yet. *)
Definition pending (s : stream) : list byte :=
  drop (length (delivered s)) (sent s).

(** How a call of [io.Copy] ended. *)
Inductive ending : Type :=
| EndEOF                  (* the source returned io.EOF: io.Copy returns nil *)
| EndFault (e : error)    (* a Read or Write failed on an open connection *)
| EndClosed.              (* a Read or Write on a connection the relay closed *)

Inductive copy_task : Type :=
| NotStarted
| Copying
| Finished (how : ending).

Record conns : Type := Conns {
  in_closed : bool;       (* in.Close() was called *)
  dialed : bool;          (* p.connector() returned a connection *)
  out_closed : bool;      (* out.Close() was called *)
  fwd : stream;
  back : stream;
  copy_fwd : copy_task;
  copy_back : copy_task
}.

Definition empty_stream : stream := Stream [] false [].

(** An accepted connection, before the dial. *)
Definition accepted : conns :=
  Conns false false false empty_stream empty_stream NotStarted NotStarted.

Definition get_stream (d : dir) (c : conns) : stream :=
  match d with Fwd => fwd c | Back => back c end.

Definition set_stream (d : dir) (s : stream) (c : conns) : conns :=
  match d with
  | Fwd => Conns (in_closed c) (dialed c) (out_closed c) s (back c)
                 (copy_fwd c) (copy_back c)
  | Back => Conns (in_closed c) (dialed c) (out_closed c) (fwd c) s
                  (copy_fwd c) (copy_back c)
  end.

Definition get_task (d : dir) (c : conns) : copy_task :=
  match d with Fwd => copy_fwd c | Back => copy_back c end.

Definition set_task (d : dir) (t : copy_task) (c : conns) : conns :=
  match d with
  | Fwd => Conns (in_closed c) (dialed c) (out_closed c) (fwd c) (back c)
                 t (copy_back c)
  | Back => Conns (in_closed c) (dialed c) (out_closed c) (fwd c) (back c)
                  (copy_fwd c) t
  end.

(** The connection a direction reads from, and the one it writes to. *)
Definition src_closed (d : dir) (c : conns) : bool :=
  match d with Fwd => in_closed c | Back => out_closed c end.

Definition dst_closed (d : dir) (c : conns) : bool :=
  match d with Fwd => out_closed c | Back => in_closed c end.

Definition close_in (c : conns) : conns :=
  Conns true (dialed c) (out_closed c) (fwd c) (back c)
        (copy_fwd c) (copy_back c).

Definition close_out (c : conns) : conns :=
  Conns (in_closed c) (dialed c) true (fwd c) (back c)
        (copy_fwd c) (copy_back c).

(** The connector returned a connection and both copy goroutines were
    started. *)
Definition spliced (c : conns) : conns :=
  Conns (in_closed c) true (out_closed c) (fwd c) (back c) Copying Copying.

(** What the peers do: write bytes, or close their writing side.  A peer
    writes on [Back] only once the outbound connection exists. *)
Inductive peer_event : Type :=
| PeerWrite (d : dir) (bs : list byte)
| PeerClose (d : dir).

Definition peer_dir (e : peer_event) : dir :=
  match e with PeerWrite d _ => d | PeerClose d => d end.

Definition peer_step (e : peer_event) (c : conns) : option conns :=
  let d := peer_dir e in
  let s := get_stream d c in
  if eof s then None
  else if match d with Fwd => true | Back => dialed c end then
    match e with
    | PeerWrite _ bs =>
        Some (set_stream d (Stream (sent s ++ bs) false (delivered s)) c)
    | PeerClose _ =>
        Some (set_stream d (Stream (sent s) true (delivered s)) c)
    end
  else None.

(** One turn of the loop inside [io.Copy(dst, src)]:
    - [Chunk n]: [src.Read] returns [n > 0] bytes and [dst.Write] writes
      them all;
    - [ReadEOF]: [src.Read] returns [io.EOF], [io.Copy] returns nil;
    - [Fault e]: a [Read] or [Write] fails with [e] for a reason outside
      the relay;
    - [UseOfClosed]: [src] was closed by the relay, or bytes were read and
      [dst] was closed by the relay. *)
Inductive copy_event : Type :=
| Chunk (n : nat)
| ReadEOF
| Fault (e : error)
| UseOfClosed.

Definition io_Copy_step (e : copy_event) (srcc dstc : bool) (s : stream)
  : option (stream * option ending) :=
  match e with
  | Chunk n =>
      if srcc || dstc then None
      else if ((0 <? n) && (n <=? length (pending s)))%nat then
        Some (Stream (sent s) (eof s) (delivered s ++ take n (pending s)),
              None)
      else None
  | ReadEOF =>
      if srcc then None
      else if eof s && (length (pending s) =? 0)%nat then Some (s, Some EndEOF)
      else None
  | Fault e => Some (s, Some (EndFault e))
  | UseOfClosed =>
      if srcc || (dstc && (0 <? length (pending s))%nat)
      then Some (s, Some EndClosed)
      else None
  end.

(** The error [io.Copy] returns. *)
Definition copy_error (h : ending) : option error :=
  match h with
  | EndEOF => None
  | EndFault e => Some e
  | EndClosed => Some ErrClosed
  end.

(** The body of a copy goroutine after [io.Copy] returned:
    [if err != nil { logError("while copying stream from ...: %v", err) }]. *)
Definition copy_log (d : dir) (h : ending) : list logline :=
  match copy_error h with
  | None => []
  | Some e =>
      [logError
         match d with
         | Back => "while copying stream from destination back to the source: %v"
         | Fwd => "while copying stream from source into the destination: %v"
         end
         (ArgErr (Some e))]
  end.

(** A step of the copy goroutine of direction [d]; the last component
    tells whether the goroutine reached its end (its deferred calls are
    the caller's). *)
Definition copy_step (d : dir) (e : copy_event) (c : conns)
  : option (conns * list logline * bool) :=
  match get_task d c with
  | Copying =>
      match io_Copy_step e (src_closed d c) (dst_closed d c) (get_stream d c) with
      | Some (s, None) => Some (set_stream d s c, [], false)
      | Some (s, Some h) =>
          Some (set_task d (Finished h) (set_stream d s c), copy_log d h, true)
      | None => None
      end
  | _ => None
  end.

End Splice.
Export Splice.

(** ** What the specification's words mean on the model *)

(** A copy goroutine of the pair is over. *)
Definition finished (t : copy_task) : bool :=
  match t with Finished _ => true | _ => false end.

Definition copying (t : copy_task) : nat :=
  match t with Copying => 1 | _ => 0 end.

(** No [Read] or [Write] of the pair failed for a reason outside the relay. *)
Definition fault_free (c : conns) : Prop :=
  forall d e, get_task d c <> Finished (EndFault e).

(** The peer that reads direction [d] observes end-of-stream when the relay
    closes the connection it writes to.  [delivers_all c]: by then, and
    absent a fault, it was given everything the other peer wrote. *)
Definition delivers_all (c : conns) : Prop :=
  forall d, dialed c = true -> dst_closed d c = true -> fault_free c ->
            delivered (get_stream d c) = sent (get_stream d c).

(** What the relay wrote is an initial segment of what the peer wrote, and
    is all of it once [io.Copy] has read end-of-stream. *)
Definition stream_ok (t : copy_task) (s : stream) : Prop :=
  delivered s `prefix_of` sent s
  /\ (t = Finished EndEOF -> eof s = true /\ delivered s = sent s).

Definition conns_ok (c : conns) : Prop :=
  stream_ok (copy_fwd c) (fwd c) /\ stream_ok (copy_back c) (back c).

(** A copy goroutine that was started and did not fail on a connection the
    relay closed. *)
Definition task_clean (t : copy_task) : Prop :=
  t <> NotStarted /\ t <> Finished EndClosed.

(** ** [proxy.run], [proxy.accept] and the goroutines they start *)

Module Proxy.
Section Engine.

(** The machine of one [handleConn] goroutine and the goroutines it
    starts differs between the variants.  [pair_step] returns the new
    state, the lines logged, and whether [handleConn] returned in this
    step, which runs its deferred [p.wg.Done()]. *)
Variables (pair pair_event : Type).
Variable handleConn_start : pair.
Variable pair_step : pair_event -> pair -> option (pair * list logline * bool).

(** The goroutine that calls [p.run()]; [p.accept()] is an argument of the
    [go] statement and so is evaluated by this goroutine too. *)
Inductive main_pc : Type :=
| MRun                            (* before p.wg.Add(1) *)
| MAccept                         (* inside the loop of p.accept() *)
| MWait                           (* blocked in p.wg.Wait() *)
| MReturned (r : option error).   (* returned p.err *)

(** The goroutine [go p.handleError(...)]. *)
Inductive herr_task : Type :=
| HENone
| HEPending (e : error)
| HEDone.

Record proxy : Type := Proxy {
  pc : main_pc;
  wg : nat;                       (* p.wg *)
  err : option error;             (* p.err *)
  herr : herr_task;
  conns_of : list pair;           (* one entry per accepted connection *)
  out : list logline              (* what was logged so far *)
}.

Inductive event : Type :=
| EvRun
| EvAccept (e : option error)     (* what listener.Accept() returns *)
| EvHandleError
| EvWait
| EvConn (k : nat) (e : pair_event).

Definition step (ev : event) (p : proxy) : option proxy :=
  match ev with
  | EvRun =>
      (* p.wg.Add(1); then p.accept() is entered *)
      match pc p with
      | MRun => Some (Proxy MAccept (S (wg p)) (err p) (herr p)
                            (conns_of p) (out p))
      | _ => None
      end
  | EvAccept None =>
      (* conn, err := p.listener.Accept(); p.wg.Add(1); go p.handleConn(conn) *)
      match pc p with
      | MAccept => Some (Proxy MAccept (S (wg p)) (err p) (herr p)
                               (conns_of p ++ [handleConn_start]) (out p))
      | _ => None
      end
  | EvAccept (Some e) =>
      (* return fmt.Errorf(...%w, err); the deferred p.wg.Done();
         go p.handleError(<the error>); p.wg.Wait() is next *)
      match pc p with
      | MAccept =>
          match wg_Done (wg p) with
          | Some n => Some (Proxy MWait n (err p) (HEPending (accept_error e))
                                  (conns_of p) (out p))
          | None => None
          end
      | _ => None
      end
  | EvHandleError =>
      match herr p with
      | HEPending e =>
          let '(e', l) := handleError (Some e) (err p) in
          Some (Proxy (pc p) (wg p) e' HEDone (conns_of p) (out p ++ l))
      | _ => None
      end
  | EvWait =>
      (* p.wg.Wait() returns once the counter is zero; return p.err *)
      match pc p with
      | MWait =>
          match wg p with
          | O => Some (Proxy (MReturned (err p)) (wg p) (err p) (herr p)
                             (conns_of p) (out p))
          | S _ => None
          end
      | _ => None
      end
  | EvConn k e =>
      match conns_of p !! k with
      | Some c =>
          match pair_step e c with
          | Some (c', l, false) =>
              Some (Proxy (pc p) (wg p) (err p) (herr p)
                          (<[k := c']> (conns_of p)) (out p ++ l))
          | Some (c', l, true) =>
              match wg_Done (wg p) with
              | Some n =>
                  Some (Proxy (pc p) n (err p) (herr p)
                              (<[k := c']> (conns_of p)) (out p ++ l))
              | None => None
              end
          | None => None
          end
      | None => None
      end
  end.

Fixpoint exec (evs : list event) (p : proxy) : option proxy :=
  match evs with
  | [] => Some p
  | ev :: evs' =>
      match step ev p with
      | Some p' => exec evs' p'
      | None => None
      end
  end.

(** [proxy{listener: ..., connector: ...}]: zero counter, nil error. *)
Definition init : proxy := Proxy MRun 0 None HENone [] [].

Definition reachable (p : proxy) : Prop :=
  exists evs, exec evs init = Some p.

(** The goroutines [p.wg] is counting: the one inside [p.accept()], and
    every [handleConn] that has not returned. *)
Variable returned : pair -> bool.

Definition accepting (m : main_pc) : nat :=
  match m with MAccept => 1 | _ => 0 end.

Fixpoint live (l : list pair) : nat :=
  match l with
  | [] => 0
  | c :: l' => (if returned c then 0 else 1) + live l'
  end.

End Engine.

Arguments Proxy {pair} _ _ _ _ _ _.
Arguments pc {pair} _.
Arguments wg {pair} _.
Arguments err {pair} _.
Arguments herr {pair} _.
Arguments conns_of {pair} _.
Arguments out {pair} _.
Arguments EvRun {pair_event}.
Arguments EvAccept {pair_event} _.
Arguments EvHandleError {pair_event}.
Arguments EvWait {pair_event}.
Arguments EvConn {pair_event} _ _.
Arguments step {pair pair_event} _ _ _ _.
Arguments exec {pair pair_event} _ _ _ _.
Arguments init {pair}.
Arguments reachable {pair pair_event} _ _ _.
Arguments live {pair} _ _.

End Proxy.
Export Proxy.

(** System calls of the top-level [run] that the claims speak about. *)
Inductive syscall : Type :=
| SysListen (network addr : string)     (* net.Listen(network, addr) *)
| SysCloseListener                      (* listener.Close() *)
| SysRemove (path : string)             (* os.Remove(path) *)
| SysExit (status : Z).                 (* os.Exit(status) *)

(** [log.Fatalf] is [log.Printf] followed by [os.Exit(1)]. *)
Definition fatal_status : Z := 1.

(** ** The variant without contexts: [src/unnamed/part_001] *)

Module Part001.

(** Where the goroutine [handleConn(in)] stands. *)
Inductive hc_pc : Type :=
| HDial         (* in p.connector() *)
| HWait         (* in wg.Wait() *)
| HReturned.

Record pair : Type := Pair {
  hc : hc_pc;
  lwg : nat;              (* the local [var wg sync.WaitGroup] *)
  sp : conns
}.

Inductive pair_event : Type :=
| Dial (e : option error)         (* what p.connector() returns *)
| Peer (e : peer_event)
| Copy (d : dir) (e : copy_event)
| Wait.

(** [go p.handleConn(conn)]: the deferred calls are registered, the
    goroutine is about to call the connector. *)
Definition handleConn_start : pair := Pair HDial 0 accepted.

Definition pair_step (ev : pair_event) (p : pair)
  : option (pair * list logline * bool) :=
  match ev with
  | Dial (Some e) =>
      (* logError(...); return; deferred: in.Close(), p.wg.Done() *)
      match hc p with
      | HDial =>
          Some (Pair HReturned (lwg p) (close_in (sp p)),
                [logError "could not connect to destination: %v" (ArgErr (Some e))],
                true)
      | _ => None
      end
  | Dial None =>
      (* defer out.Close(); wg.Add(2); go copy back; go copy forward *)
      match hc p with
      | HDial => Some (Pair HWait (lwg p + 2) (spliced (sp p)), [], false)
      | _ => None
      end
  | Peer e =>
      match peer_step e (sp p) with
      | Some c => Some (Pair (hc p) (lwg p) c, [], false)
      | None => None
      end
  | Copy d e =>
      match copy_step d e (sp p) with
      | Some (c, l, false) => Some (Pair (hc p) (lwg p) c, l, false)
      | Some (c, l, true) =>
          (* deferred: wg.Done() *)
          match wg_Done (lwg p) with
          | Some n => Some (Pair (hc p) n c, l, false)
          | None => None
          end
      | None => None
      end
  | Wait =>
      (* wg.Wait() returns; deferred: out.Close(), in.Close(), p.wg.Done() *)
      match hc p, lwg p with
      | HWait, O =>
          Some (Pair HReturned (lwg p) (close_in (close_out (sp p))), [], true)
      | _, _ => None
      end
  end.

Definition returned (p : pair) : bool :=
  match hc p with HReturned => true | _ => false end.

(** What holds of a pair at each point of [handleConn]. *)
Definition pair_inv (p : pair) : Prop :=
  conns_ok (sp p)
  /\ match hc p with
     | HDial =>
         lwg p = 0 /\ dialed (sp p) = false
         /\ in_closed (sp p) = false /\ out_closed (sp p) = false
         /\ copy_fwd (sp p) = NotStarted /\ copy_back (sp p) = NotStarted
     | HWait =>
         lwg p = copying (copy_fwd (sp p)) + copying (copy_back (sp p))
         /\ dialed (sp p) = true
         /\ in_closed (sp p) = false /\ out_closed (sp p) = false
         /\ task_clean (copy_fwd (sp p)) /\ task_clean (copy_back (sp p))
     | HReturned =>
         in_closed (sp p) = true /\ out_closed (sp p) = dialed (sp p)
         /\ (dialed (sp p) = true ->
             finished (copy_fwd (sp p)) = true
             /\ finished (copy_back (sp p)) = true
             /\ task_clean (copy_fwd (sp p)) /\ task_clean (copy_back (sp p)))
         /\ (dialed (sp p) = false ->
             copy_fwd (sp p) = NotStarted /\ copy_back (sp p) = NotStarted)
     end.

Abbreviation state := (proxy pair).
Abbreviation step := (Proxy.step handleConn_start pair_step).
Abbreviation exec := (Proxy.exec handleConn_start pair_step).
Abbreviation reachable := (Proxy.reachable handleConn_start pair_step).

(** *** The top-level [run(sourceAddr, destAddr)] *)

Inductive top : Type :=
| TStart
| TExited (status : Z) (sys : list syscall) (log : list logline)
| TServing (sys : list syscall) (p : state)
| TReturned (r : option error) (sys : list syscall) (log : list logline).

Inductive top_event : Type :=
| TListen (e : option error)      (* what net.Listen returns *)
| TProxy (ev : event pair_event)  (* a step inside p.run() *)
| TDefers (rm : option error).    (* p.run() returned; [rm] is what
                                     os.Remove returns if it is called *)

(** What every call of the connector passes to [net.Dial]. *)
Definition connector (destAddr : string) : string * string :=
  (network_of destAddr, destAddr).

Definition run_step (sourceAddr destAddr : string) (ev : top_event) (t : top)
  : option top :=
  match ev, t with
  | TListen e, TStart =>
      let sys := [SysListen (network_of sourceAddr) sourceAddr] in
      match e with
      | Some e =>
          (* log.Fatalf("could not listen on the source: %v", err) *)
          Some (TExited fatal_status (sys ++ [SysExit fatal_status])
                  [Printf "could not listen on the source: %v" (ArgErr (Some e))])
      | None => Some (TServing sys init)
      end
  | TProxy pev, TServing sys p =>
      match step pev p with
      | Some p' => Some (TServing sys p')
      | None => None
      end
  | TDefers rm, TServing sys p =>
      match pc p with
      | MReturned r =>
          (* deferred: listener.Close(); then
             if isUnixSocket(sourceAddr) { err := os.Remove(sourceAddr); ... } *)
          if isUnixSocket sourceAddr then
            Some (TReturned r
                    (sys ++ [SysCloseListener; SysRemove sourceAddr])
                    (out p ++
                     match rm with
                     | Some _ => [logError "could not remove socket %s"
                                           (ArgStr sourceAddr)]
                     | None => []
                     end))
          else Some (TReturned r (sys ++ [SysCloseListener]) (out p))
      | _ => None
      end
  | _, _ => None
  end.

Fixpoint run_exec (sourceAddr destAddr : string) (evs : list top_event)
  (t : top) : option top :=
  match evs with
  | [] => Some t
  | ev :: evs' =>
      match run_step sourceAddr destAddr ev t with
      | Some t' => run_exec sourceAddr destAddr evs' t'
      | None => None
      end
  end.

(** The system calls made so far. *)
Definition syscalls (t : top) : list syscall :=
  match t with
  | TStart => []
  | TExited _ sys _ | TServing sys _ | TReturned _ sys _ => sys
  end.

End Part001.

(** ** The variant with contexts: [src/main.go] *)

Module MainGo.

(** Where the goroutine [handleConn(parentCtx, in)] stands. *)
Inductive hc_pc : Type :=
| HStart        (* at its first statement *)
| HDial         (* in p.connector() *)
| HWait         (* in wg.Wait() *)
| HReturned.

(** A goroutine [<-ctx.Done(); c.Close()]. *)
Inductive closer : Type :=
| CNone         (* not started *)
| CWaiting      (* in <-ctx.Done() *)
| CClosed.      (* called c.Close() *)

Record pair : Type := Pair {
  hc : hc_pc;
  lwg : nat;              (* the local [var wg sync.WaitGroup] *)
  ctx_done : bool;        (* the pair's ctx is cancelled *)
  closer_in : closer;
  closer_out : closer;
  sp : conns
}.

Inductive pair_event : Type :=
| Begin
| Dial (e : option error)         (* what p.connector() returns *)
| Peer (e : peer_event)
| Copy (d : dir) (e : copy_event)
| CloseIn
| CloseOut
| ParentCancel                    (* parentCtx is cancelled *)
| Wait.

Definition handleConn_start : pair :=
  Pair HStart 0 false CNone CNone accepted.

Definition pair_step (ev : pair_event) (p : pair)
  : option (pair * list logline * bool) :=
  match ev with
  | Begin =>
      (* ctx, cancel := context.WithCancel(parentCtx);
         wg.Add(1); go func() { <-ctx.Done(); in.Close() }() *)
      match hc p with
      | HStart =>
          Some (Pair HDial (lwg p + 1) (ctx_done p) CWaiting (closer_out p) (sp p),
                [], false)
      | _ => None
      end
  | Dial (Some e) =>
      (* logError(...); return; deferred: cancel(), p.wg.Done() *)
      match hc p with
      | HDial =>
          Some (Pair HReturned (lwg p) true (closer_in p) (closer_out p) (sp p),
                [logError "could not connect to destination: %v" (ArgErr (Some e))],
                true)
      | _ => None
      end
  | Dial None =>
      (* wg.Add(1); go func() { <-ctx.Done(); out.Close() }();
         wg.Add(2); go copy back; go copy forward *)
      match hc p with
      | HDial =>
          Some (Pair HWait (lwg p + 1 + 2) (ctx_done p) (closer_in p) CWaiting
                     (spliced (sp p)),
                [], false)
      | _ => None
      end
  | Peer e =>
      match peer_step e (sp p) with
      | Some c =>
          Some (Pair (hc p) (lwg p) (ctx_done p) (closer_in p) (closer_out p) c,
                [], false)
      | None => None
      end
  | Copy d e =>
      match copy_step d e (sp p) with
      | Some (c, l, false) =>
          Some (Pair (hc p) (lwg p) (ctx_done p) (closer_in p) (closer_out p) c,
                l, false)
      | Some (c, l, true) =>
          (* deferred: cancel(), wg.Done() *)
          match wg_Done (lwg p) with
          | Some n =>
              Some (Pair (hc p) n true (closer_in p) (closer_out p) c, l, false)
          | None => None
          end
      | None => None
      end
  | CloseIn =>
      match closer_in p, ctx_done p with
      | CWaiting, true =>
          Some (Pair (hc p) (lwg p) (ctx_done p) CClosed (closer_out p)
                     (close_in (sp p)),
                [], false)
      | _, _ => None
      end
  | CloseOut =>
      match closer_out p, ctx_done p with
      | CWaiting, true =>
          Some (Pair (hc p) (lwg p) (ctx_done p) (closer_in p) CClosed
                     (close_out (sp p)),
                [], false)
      | _, _ => None
      end
  | ParentCancel =>
      Some (Pair (hc p) (lwg p) true (closer_in p) (closer_out p) (sp p),
            [], false)
  | Wait =>
      (* wg.Wait() returns; deferred: cancel(), p.wg.Done() *)
      match hc p, lwg p with
      | HWait, O =>
          Some (Pair HReturned (lwg p) true (closer_in p) (closer_out p) (sp p),
                [], true)
      | _, _ => None
      end
  end.

Definition returned (p : pair) : bool :=
  match hc p with HReturned => true | _ => false end.

(** What holds of a pair at each point of [handleConn] and of the two
    goroutines that close its connections. *)
Definition pair_inv (p : pair) : Prop :=
  conns_ok (sp p)
  /\ match closer_in p with
     | CNone => hc p = HStart /\ in_closed (sp p) = false
     | CWaiting => hc p <> HStart /\ in_closed (sp p) = false
     | CClosed => hc p <> HStart /\ in_closed (sp p) = true /\ ctx_done p = true
     end
  /\ match closer_out p with
     | CNone => dialed (sp p) = false /\ out_closed (sp p) = false
     | CWaiting => dialed (sp p) = true /\ out_closed (sp p) = false
     | CClosed => dialed (sp p) = true /\ out_closed (sp p) = true
                  /\ ctx_done p = true
     end
  /\ match hc p with
     | HStart => lwg p = 0 /\ dialed (sp p) = false
     | HDial => lwg p = 1 /\ dialed (sp p) = false
     | HWait =>
         lwg p = 2 + copying (copy_fwd (sp p)) + copying (copy_back (sp p))
         /\ dialed (sp p) = true
         /\ copy_fwd (sp p) <> NotStarted /\ copy_back (sp p) <> NotStarted
         /\ (finished (copy_fwd (sp p)) || finished (copy_back (sp p)) = true ->
             ctx_done p = true)
     | HReturned => dialed (sp p) = false /\ ctx_done p = true
     end
  /\ (dialed (sp p) = false ->
      copy_fwd (sp p) = NotStarted /\ copy_back (sp p) = NotStarted).

Abbreviation state := (proxy pair).
Abbreviation step := (Proxy.step handleConn_start pair_step).
Abbreviation exec := (Proxy.exec handleConn_start pair_step).
Abbreviation reachable := (Proxy.reachable handleConn_start pair_step).

(** *** The top-level [run(parentCtx, sourceAddr, destAddr)] *)

Record serving : Type := Serving {
  run_ctx_done : bool;        (* run's ctx is cancelled *)
  listener_closed : bool;
  closer_done : bool;         (* the goroutine that closes the listener *)
  runner_done : bool;         (* the goroutine that runs the proxy *)
  twg : nat;                  (* run's [var wg sync.WaitGroup] *)
  terr : option error;        (* run's variable [err] *)
  prx : state
}.

Inductive top : Type :=
| TStart
| TExited (status : Z) (sys : list syscall) (log : list logline)
| TServing (sys : list syscall) (s : serving)
| TReturned (r : option error) (sys : list syscall) (log : list logline).

Inductive top_event : Type :=
| TListen (e : option error)      (* what net.Listen returns *)
| TProxy (ev : event pair_event)  (* a step inside p.run(ctx) *)
| TRunnerDone                     (* p.run(ctx) returned *)
| TCloseListener
| TParentCancel                   (* run's parentCtx is cancelled *)
| TWait.

(** What every call of the connector passes to [net.Dial]. *)
Definition connector (destAddr : string) : string * string :=
  (network_of destAddr, destAddr).

(** Steps of the proxy the environment of [run] allows: no connection is
    accepted on a closed listener, and a pair sees its parent context
    cancelled only once it is. *)
Definition allowed (s : serving) (ev : event pair_event) : bool :=
  match ev with
  | EvAccept None => negb (listener_closed s)
  | EvConn _ ParentCancel => run_ctx_done s
  | _ => true
  end.

Definition run_step (sourceAddr destAddr : string) (ev : top_event) (t : top)
  : option top :=
  match ev, t with
  | TListen e, TStart =>
      let sys := [SysListen (network_of sourceAddr) sourceAddr] in
      match e with
      | Some e =>
          (* log.Fatalf("could not listen on the source: %v", err) *)
          Some (TExited fatal_status (sys ++ [SysExit fatal_status])
                  [Printf "could not listen on the source: %v" (ArgErr (Some e))])
      | None =>
          (* wg.Add(1); go <close the listener>; err = nil;
             wg.Add(1); go <run the proxy>; wg.Wait() is next *)
          Some (TServing sys (Serving false false false false 2 None init))
      end
  | TProxy pev, TServing sys s =>
      if negb (runner_done s) && allowed s pev then
        match step pev (prx s) with
        | Some p' =>
            Some (TServing sys
                    (Serving (run_ctx_done s) (listener_closed s) (closer_done s)
                             (runner_done s) (twg s) (terr s) p'))
        | None => None
        end
      else None
  | TRunnerDone, TServing sys s =>
      (* err = p.run(ctx); deferred: cancel(), wg.Done() *)
      match pc (prx s), runner_done s, wg_Done (twg s) with
      | MReturned r, false, Some n =>
          Some (TServing sys
                  (Serving true (listener_closed s) (closer_done s) true n r (prx s)))
      | _, _, _ => None
      end
  | TCloseListener, TServing sys s =>
      (* <-ctx.Done(); listener.Close(); deferred: wg.Done() *)
      match run_ctx_done s, closer_done s, wg_Done (twg s) with
      | true, false, Some n =>
          Some (TServing (sys ++ [SysCloseListener])
                  (Serving (run_ctx_done s) true true (runner_done s) n (terr s)
                           (prx s)))
      | _, _, _ => None
      end
  | TParentCancel, TServing sys s =>
      Some (TServing sys
              (Serving true (listener_closed s) (closer_done s) (runner_done s)
                       (twg s) (terr s) (prx s)))
  | TWait, TServing sys s =>
      (* wg.Wait() returns; return err *)
      match twg s with
      | O => Some (TReturned (terr s) sys (out (prx s)))
      | S _ => None
      end
  | _, _ => None
  end.

Fixpoint run_exec (sourceAddr destAddr : string) (evs : list top_event)
  (t : top) : option top :=
  match evs with
  | [] => Some t
  | ev :: evs' =>
      match run_step sourceAddr destAddr ev t with
      | Some t' => run_exec sourceAddr destAddr evs' t'
      | None => None
      end
  end.

Definition syscalls (t : top) : list syscall :=
  match t with
  | TStart => []
  | TExited _ sys _ | TServing sys _ | TReturned _ sys _ => sys
  end.

End MainGo.


(** ** Concrete runs

    Schedules of the two machines and the states they lead to; the states
    are computed from the schedules. *)

(** The state a schedule leads to. *)
Definition some_or {A : Type} (o : option A) (d : A) : A :=
  match o with Some x => x | None => d end.

(** One connection is accepted and spliced, then [Accept] fails. *)
Definition spliced_then_accept_fails : list (event Part001.pair_event) :=
  [EvRun; EvAccept None; EvConn 0 (Part001.Dial None);
   EvAccept (Some ErrClosed)].

Definition waiting_on_pair : Part001.state :=
  Eval vm_compute in some_or (Part001.exec spliced_then_accept_fails init) init.

(** A run of part_001 in which the dial fails, then [Accept] fails, and
    [p.run()] returns. *)
Definition dial_fails_then_accept_fails : list (event Part001.pair_event) :=
  [EvRun; EvAccept None; EvConn 0 (Part001.Dial (Some (ErrMsg "connection refused")));
   EvAccept (Some ErrClosed); EvWait].

Definition run_has_returned : Part001.state :=
  Eval vm_compute in some_or (Part001.exec dial_fails_then_accept_fails init) init.

(** What [handleConn] logs when the connector fails with [e]. *)
Definition dial_failed_log (e : error) : logline :=
  logError "could not connect to destination: %v" (ArgErr (Some e)).

(** Two connections were accepted; the second is about to dial. *)
Definition two_accepted : list (event Part001.pair_event) :=
  [EvRun; EvAccept None; EvConn 0 (Part001.Dial None); EvAccept None].

Definition two_pairs : Part001.state :=
  Eval vm_compute in some_or (Part001.exec two_accepted init) init.

(** The destination closes its writing side and the copy back ends on
    end-of-stream, while the client is silent. *)
Definition copy_back_ends_first : list (event Part001.pair_event) :=
  [EvRun; EvAccept None; EvConn 0 (Part001.Dial None);
   EvConn 0 (Part001.Peer (PeerClose Back));
   EvConn 0 (Part001.Copy Back ReadEOF)].

Definition half_finished : Part001.state :=
  Eval vm_compute in some_or (Part001.exec copy_back_ends_first init) init.

(** In main.go: the destination ends its stream, the copy back reads
    end-of-stream and cancels the pair's context. *)
Definition main_copy_back_ends : list (event MainGo.pair_event) :=
  [EvRun; EvAccept None; EvConn 0 MainGo.Begin; EvConn 0 (MainGo.Dial None);
   EvConn 0 (MainGo.Peer (PeerClose Back));
   EvConn 0 (MainGo.Copy Back ReadEOF)].

Definition main_cancelled : MainGo.state :=
  Eval vm_compute in some_or (MainGo.exec main_copy_back_ends init) init.

(** The pair in that state: the context is cancelled, both closing
    goroutines are about to close their connection. *)
Definition main_cancelled_pair : MainGo.pair :=
  MainGo.Pair MainGo.HWait 3 true MainGo.CWaiting MainGo.CWaiting
    (Conns false true false empty_stream (Stream [] true [])
           Copying (Finished EndEOF)).

(** In main.go: the client has written three bytes, the destination ends
    its own stream, the copy back reads end-of-stream and cancels the
    pair's context, and the outbound connection is closed. *)
Definition main_back_ends_first : list (event MainGo.pair_event) :=
  [EvRun; EvAccept None; EvConn 0 MainGo.Begin; EvConn 0 (MainGo.Dial None);
   EvConn 0 (MainGo.Peer (PeerWrite Fwd ["a"; "b"; "c"]%byte));
   EvConn 0 (MainGo.Peer (PeerClose Back));
   EvConn 0 (MainGo.Copy Back ReadEOF);
   EvConn 0 MainGo.CloseOut].

Definition main_truncated : MainGo.state :=
  Eval vm_compute in some_or (MainGo.exec main_back_ends_first init) init.

(** The pair in that state: the outbound connection is closed, the three
    bytes are still unread. *)
Definition main_truncated_pair : MainGo.pair :=
  MainGo.Pair MainGo.HWait 3 true MainGo.CWaiting MainGo.CClosed
    (Conns false true true (Stream ["a"; "b"; "c"]%byte false [])
           (Stream [] true []) Copying (Finished EndEOF)).

(** In part_001: the client writes three bytes and ends its stream, the
    copy forward relays them in two reads and reads end-of-stream; the
    destination ends its stream too, and [handleConn] returns. *)
Definition relay_three_bytes : list (event Part001.pair_event) :=
  [EvRun; EvAccept None; EvConn 0 (Part001.Dial None);
   EvConn 0 (Part001.Peer (PeerWrite Fwd ["a"; "b"; "c"]%byte));
   EvConn 0 (Part001.Copy Fwd (Chunk 2));
   EvConn 0 (Part001.Peer (PeerClose Fwd));
   EvConn 0 (Part001.Copy Fwd (Chunk 1));
   EvConn 0 (Part001.Copy Fwd ReadEOF);
   EvConn 0 (Part001.Peer (PeerClose Back));
   EvConn 0 (Part001.Copy Back ReadEOF);
   EvConn 0 Part001.Wait].

Definition three_relayed : Part001.state :=
  Eval vm_compute in some_or (Part001.exec relay_three_bytes init) init.

(** The pair in that state: both connections closed, the three bytes
    delivered. *)
Definition three_relayed_pair : Part001.pair :=
  Part001.Pair Part001.HReturned 0
    (Conns true true true (Stream ["a"; "b"; "c"]%byte true ["a"; "b"; "c"]%byte)
           (Stream [] true []) (Finished EndEOF) (Finished EndEOF)).

(** What [run] logs, through [log.Fatalf], when [net.Listen] fails with [e]. *)
Definition listen_failed_log (e : error) : logline :=
  Printf "could not listen on the source: %v" (ArgErr (Some e)).

(** The system calls of part_001's [run] at each of its points. *)
Definition Part001_syscalls_ok (src : string) (t : Part001.top) : Prop :=
  match t with
  | Part001.TStart => True
  | Part001.TExited _ sys _ =>
      sys = [SysListen (network_of src) src; SysExit fatal_status]
  | Part001.TServing sys _ => sys = [SysListen (network_of src) src]
  | Part001.TReturned _ sys _ =>
      sys = [SysListen (network_of src) src; SysCloseListener]
            ++ (if isUnixSocket src then [SysRemove src] else [])
  end.

(** A run of part_001 on a Unix socket: [Accept] fails at once, [p.run()]
    returns, and the removal of the socket file fails. *)
Definition serve_and_leave : list Part001.top_event :=
  [Part001.TListen None; Part001.TProxy EvRun;
   Part001.TProxy (EvAccept (Some ErrClosed)); Part001.TProxy EvWait;
   Part001.TDefers (Some (ErrMsg "no such file or directory"))].

(** ** Vocabulary of the further properties *)

(** What [handleError] logs for the error [proxy.accept] returns when
    [Accept] fails with [e]. *)
Definition ignored_log (e : error) : logline :=
  Printf "ERROR: ignored error: %v" (ArgErr (Some (accept_error e))).

Definition opposite (d : dir) : dir :=
  match d with Fwd => Back | Back => Fwd end.

(** The events of a run of main.go that leaves direction [d] undisturbed:
    no read or write fails for a reason outside the relay, the parent
    context is not cancelled, and the peer that writes the opposite
    direction does not end its stream. *)
Definition undisturbed (d : dir) (ev : event MainGo.pair_event) : bool :=
  match ev with
  | EvConn _ (MainGo.Copy _ (Fault _)) => false
  | EvConn _ MainGo.ParentCancel => false
  | EvConn _ (MainGo.Peer (PeerClose d')) =>
      match d, d' with
      | Fwd, Fwd | Back, Back => true
      | _, _ => false
      end
  | _ => true
  end.

(** What holds of every pair along such a run: the context of a spliced
    pair is cancelled only by the copy of direction [d] reading
    end-of-stream. *)
Definition undisturbed_inv (d : dir) (c : MainGo.pair) : Prop :=
  MainGo.pair_inv c
  /\ eof (get_stream (opposite d) (MainGo.sp c)) = false
  /\ (forall d' e, get_task d' (MainGo.sp c) <> Finished (EndFault e))
  /\ (MainGo.hc c = MainGo.HStart \/ MainGo.hc c = MainGo.HDial ->
      MainGo.ctx_done c = false)
  /\ (dialed (MainGo.sp c) = true -> MainGo.ctx_done c = true ->
      get_task d (MainGo.sp c) = Finished EndEOF).

(** The run of [TestSimpleTransmission] through the relay: the client
    connects, the relay dials the server, the client writes the test's
    string and closes, the relay copies the bytes in two reads, reads
    end-of-stream and closes the outbound connection. *)
Definition test_payload : list byte :=
  String.list_byte_of_string "deadbeef random string".

Definition simple_transmission : list (event MainGo.pair_event) :=
  [EvRun; EvAccept None; EvConn 0 MainGo.Begin; EvConn 0 (MainGo.Dial None);
   EvConn 0 (MainGo.Peer (PeerWrite Fwd test_payload));
   EvConn 0 (MainGo.Copy Fwd (Chunk 16));
   EvConn 0 (MainGo.Peer (PeerClose Fwd));
   EvConn 0 (MainGo.Copy Fwd (Chunk 6));
   EvConn 0 (MainGo.Copy Fwd ReadEOF);
   EvConn 0 MainGo.CloseOut].

Definition transmitted : MainGo.state :=
  Eval vm_compute in some_or (MainGo.exec simple_transmission init) init.

Definition transmitted_pair : MainGo.pair :=
  Eval vm_compute in some_or (conns_of transmitted !! 0) MainGo.handleConn_start.

(** ** [main] *)

Module Cli.

(** What the process prints: the lines of the log, the one log line of
    [main] whose argument is a number, and the lines on standard output. *)
Inductive printed : Type :=
| LogLine (l : logline)
| LogCount (format : string) (n : nat)
| Printf (format : string) (a : string)     (* fmt.Printf(format, a) *)
| Println (s : string).                     (* fmt.Println(s) *)

(** [const usageExit = 64]. *)
Definition usageExit : Z := 64.

(** [usage(progname)], up to its [os.Exit(usageExit)]. *)
Definition usage (progname : string) : list printed :=
  [Printf "Usage: %s source destination\n\n" progname;
   Println "  source: the local address onto which to listen for new connections";
   Println "  destination: the remote address to which to connect"].

(** What [main] sees of [run]: it is running, it has ended the process
    (through [log.Fatalf]), or it has returned. *)
Inductive run_view : Type :=
| Running
| RunExited (status : Z) (sys : list syscall) (log : list logline)
| RunReturned (r : option error) (sys : list syscall) (log : list logline).

Section Main.

Variables (top top_event : Type).
Variable top_start : top.
Variable run_step : string -> string -> top_event -> top -> option top.
Variable view : top -> run_view.

Inductive process : Type :=
| Started
| InRun (src dst : string) (t : top)
| Exited (status : Z) (sys : list syscall) (out : list printed).

Inductive main_event : Type :=
| Parse                         (* flag.Parse(); args := flag.Args() *)
| RunStep (ev : top_event)      (* a step inside run(args[0], args[1]) *)
| RunReturns.                   (* run returned; if err != nil { log.Fatalf } *)

(** [main], for the program name [os.Args[0]] and the positional arguments
    [flag.Args()]. *)
Definition main_step (progname : string) (args : list string)
  (ev : main_event) (s : process) : option process :=
  match ev, s with
  | Parse, Started =>
      match args with
      | [src; dst] => Some (InRun src dst top_start)
      | _ =>
          (* logError("could not parse arguments. ...", len(args));
             usage(progname) *)
          Some (Exited usageExit [SysExit usageExit]
                  (LogCount
                     ("ERROR: " ++ "could not parse arguments. We only require 2 arguments, got %d")
                     (length args)
                   :: usage progname))
      end
  | RunStep ev, InRun src dst t =>
      match run_step src dst ev t with
      | Some t' =>
          match view t' with
          | RunExited status sys log => Some (Exited status sys (map LogLine log))
          | _ => Some (InRun src dst t')
          end
      | None => None
      end
  | RunReturns, InRun src dst t =>
      match view t with
      | RunReturned (Some e) sys log =>
          (* log.Fatalf("proxying error: %v", err) *)
          Some (Exited fatal_status (sys ++ [SysExit fatal_status])
                  (map LogLine
                     (log ++ [GoLib.Printf "proxying error: %v" (ArgErr (Some e))])))
      | RunReturned None sys log => Some (Exited 0 sys (map LogLine log))
      | _ => None
      end
  | _, _ => None
  end.

Fixpoint main_exec (progname : string) (args : list string)
  (evs : list main_event) (s : process) : option process :=
  match evs with
  | [] => Some s
  | ev :: evs' =>
      match main_step progname args ev s with
      | Some s' => main_exec progname args evs' s'
      | None => None
      end
  end.

End Main.

Arguments Started {top}.
Arguments InRun {top} _ _ _.
Arguments Exited {top} _ _ _.
Arguments Parse {top_event}.
Arguments RunStep {top_event} _.
Arguments RunReturns {top_event}.
Arguments main_step {top top_event} _ _ _ _ _ _ _.
Arguments main_exec {top top_event} _ _ _ _ _ _ _.

End Cli.

(** [main] of part_001. *)
Definition Part001_view (t : Part001.top) : Cli.run_view :=
  match t with
  | Part001.TStart | Part001.TServing _ _ => Cli.Running
  | Part001.TExited status sys log => Cli.RunExited status sys log
  | Part001.TReturned r sys log => Cli.RunReturned r sys log
  end.

Definition Part001_main_exec :=
  Cli.main_exec Part001.TStart Part001.run_step Part001_view.

(** [main] of main.go.  Its context is never cancelled: [main] drops the
    [cancel] it gets ([_ = cancel]). *)
Definition MainGo_view (t : MainGo.top) : Cli.run_view :=
  match t with
  | MainGo.TStart | MainGo.TServing _ _ => Cli.Running
  | MainGo.TExited status sys log => Cli.RunExited status sys log
  | MainGo.TReturned r sys log => Cli.RunReturned r sys log
  end.

Definition MainGo_run_under_main (src dst : string) (ev : MainGo.top_event)
  (t : MainGo.top) : option MainGo.top :=
  match ev with
  | MainGo.TParentCancel => None
  | _ => MainGo.run_step src dst ev t
  end.

Definition MainGo_main_exec :=
  Cli.main_exec MainGo.TStart MainGo_run_under_main MainGo_view.

(** What holds at each point of part_001's [run]. *)
Definition Part001_run_ok (src : string) (t : Part001.top) : Prop :=
  match t with
  | Part001.TStart => True
  | Part001.TExited status sys log =>
      status = fatal_status
      /\ sys = [SysListen (network_of src) src; SysExit fatal_status]
      /\ exists e, log = [listen_failed_log e]
  | Part001.TServing sys p =>
      Part001.reachable p /\ sys = [SysListen (network_of src) src]
  | Part001.TReturned r sys _ =>
      r = None
      /\ sys = [SysListen (network_of src) src; SysCloseListener]
               ++ (if isUnixSocket src then [SysRemove src] else [])
  end.

(** What holds at each point of main.go's [run]. *)
Definition MainGo_run_ok (src : string) (t : MainGo.top) : Prop :=
  match t with
  | MainGo.TStart => True
  | MainGo.TExited status sys log =>
      status = fatal_status
      /\ sys = [SysListen (network_of src) src; SysExit fatal_status]
      /\ exists e, log = [listen_failed_log e]
  | MainGo.TServing sys s =>
      MainGo.reachable (MainGo.prx s)
      /\ MainGo.terr s = None
      /\ MainGo.twg s
         = (if MainGo.closer_done s then 0 else 1)
           + (if MainGo.runner_done s then 0 else 1)
      /\ sys = SysListen (network_of src) src
               :: (if MainGo.closer_done s then [SysCloseListener] else [])
      /\ MainGo.listener_closed s = MainGo.closer_done s
      /\ (MainGo.closer_done s = true -> MainGo.run_ctx_done s = true)
      /\ (MainGo.runner_done s = true ->
          MainGo.run_ctx_done s = true
          /\ exists r, pc (MainGo.prx s) = MReturned r)
  | MainGo.TReturned r sys _ =>
      r = None /\ sys = [SysListen (network_of src) src; SysCloseListener]
  end.

(** A run of main.go's [run] under a test: [Accept] fails, the proxy
    returns, which cancels the context; the listener is closed and [run]
    returns. *)
Definition main_go_serve_and_leave : list MainGo.top_event :=
  [MainGo.TListen None; MainGo.TProxy EvRun;
   MainGo.TProxy (EvAccept (Some ErrClosed)); MainGo.TProxy EvWait;
   MainGo.TRunnerDone; MainGo.TCloseListener; MainGo.TWait].



(** What [main] logs before the usage text. *)
Definition usage_error_log (args : list string) : Cli.printed :=
  Cli.LogCount
    "ERROR: could not parse arguments. We only require 2 arguments, got %d"
    (length args).



(** In part_001: the destination has ended its stream and the copy back is
    over; the client then writes three bytes. *)
Definition client_writes_late : list (event Part001.pair_event) :=
  copy_back_ends_first
  ++ [EvConn 0 (Part001.Peer (PeerWrite Fwd ["a"; "b"; "c"]%byte))].

Definition late_bytes : Part001.state :=
  Eval vm_compute in some_or (Part001.exec client_writes_late init) init.

Definition late_bytes_pair : Part001.pair :=
  Eval vm_compute in some_or (conns_of late_bytes !! 0) Part001.handleConn_start.

(** main.go's [run] is serving and its parent context is cancelled. *)
Definition main_go_cancelled_while_serving : list MainGo.top_event :=
  [MainGo.TListen None; MainGo.TProxy EvRun; MainGo.TParentCancel].

(* ===================================================================== *)
(** * Part II: properties *)
(* ===================================================================== *)

(** ** The address classifier *)

Section Classifier.

Local Open Scope char_scope.

Lemma prefix_empty (s : string) : String.prefix "" s = true.
Proof. destruct s; reflexivity. Qed.

Lemma prefix_slash_cons (a : Ascii.ascii) (s : string) :
  String.prefix "/" (String a s) = Ascii.eqb "/" a.
Proof.
  change (String.prefix "/" (String a s))
    with (if Ascii.ascii_dec "/" a then String.prefix "" s else false).
  destruct (Ascii.ascii_dec "/" a) as [<- | Hne].
  - rewrite prefix_empty, Ascii.eqb_refl. reflexivity.
  - symmetry. apply Ascii.eqb_neq. exact Hne.
Qed.

(** [isUnixSocket] looks for the byte ['/'] and at nothing else. *)
Lemma isUnixSocket_existsb (addr : string) :
  isUnixSocket addr = existsb (Ascii.eqb "/") (String.list_ascii_of_string addr).
Proof.
  unfold isUnixSocket.
  induction addr as [| a s IH].
  - reflexivity.
  - cbn [strings_Contains String.list_ascii_of_string existsb].
    rewrite prefix_slash_cons, IH. reflexivity.
Qed.

Lemma isUnixSocket_true (addr : string) :
  isUnixSocket addr = true <-> In "/" (String.list_ascii_of_string addr).
Proof.
  rewrite isUnixSocket_existsb, existsb_exists. split.
  - intros (c & Hin & Heq). apply Ascii.eqb_eq in Heq. subst c. exact Hin.
  - intros Hin. exists "/". split; [exact Hin | apply Ascii.eqb_refl].
Qed.

Lemma isUnixSocket_false (addr : string) :
  isUnixSocket addr = false <-> ~ In "/" (String.list_ascii_of_string addr).
Proof.
  rewrite <- isUnixSocket_true. destruct (isUnixSocket addr); split; congruence.
Qed.

Lemma isUnixSocket_app (a b : string) :
  isUnixSocket (a ++ String "/" b)%string = true.
Proof.
  apply isUnixSocket_true.
  induction a as [| c a IH]; cbn; [left; reflexivity | right; exact IH].
Qed.

End Classifier.

(** ** [proxy.run]: facts that hold for both variants *)

Module ProxyFacts.
Section Facts.

Context {pair pair_event : Type}.
Variable start : pair.
Variable pair_step : pair_event -> pair -> option (pair * list logline * bool).

Abbreviation step := (Proxy.step start pair_step).
Abbreviation exec := (Proxy.exec start pair_step).
Abbreviation reachable := (Proxy.reachable start pair_step).

Lemma exec_app (evs1 evs2 : list (event pair_event)) (p : proxy pair) :
  exec (evs1 ++ evs2) p =
  match exec evs1 p with Some p' => exec evs2 p' | None => None end.
Proof.
  revert p. induction evs1 as [| ev evs1 IH]; intros p; cbn; [reflexivity |].
  destruct (step ev p); [apply IH | reflexivity].
Qed.

Lemma reachable_init : reachable init.
Proof. exists []. reflexivity. Qed.

Lemma reachable_step (p p' : proxy pair) ev :
  reachable p -> step ev p = Some p' -> reachable p'.
Proof.
  intros [evs Hevs] Hstep. exists (evs ++ [ev]).
  rewrite exec_app, Hevs. cbn. rewrite Hstep. reflexivity.
Qed.

Lemma reachable_exec (p p' : proxy pair) evs :
  reachable p -> exec evs p = Some p' -> reachable p'.
Proof.
  intros [evs0 Hevs0] Hexec. exists (evs0 ++ evs).
  rewrite exec_app, Hevs0. exact Hexec.
Qed.

(** A property of the initial state that every step preserves holds of
    every reachable state. *)
Lemma exec_invariant (P : proxy pair -> Prop) :
  (forall p ev p', P p -> step ev p = Some p' -> P p') ->
  forall evs p p', P p -> exec evs p = Some p' -> P p'.
Proof.
  intros Hpres evs. induction evs as [| ev evs IH]; intros p p' HP Hexec.
  - cbn in Hexec. congruence.
  - cbn in Hexec. destruct (step ev p) as [p1 |] eqn:Hstep; [| discriminate].
    eapply IH; [eapply Hpres; eassumption | exact Hexec].
Qed.

Lemma reachable_invariant (P : proxy pair -> Prop) :
  P init ->
  (forall p ev p', P p -> step ev p = Some p' -> P p') ->
  forall p, reachable p -> P p.
Proof.
  intros Hinit Hpres p [evs Hevs].
  eapply exec_invariant; [exact Hpres | exact Hinit | exact Hevs].
Qed.

(** Case analysis of a step on a connection. *)
Lemma step_conn_inv k e (p p' : proxy pair) :
  step (EvConn k e) p = Some p' ->
  exists c c' l d,
    conns_of p !! k = Some c /\ pair_step e c = Some (c', l, d)
    /\ pc p' = pc p /\ err p' = err p /\ herr p' = herr p
    /\ conns_of p' = <[k := c']> (conns_of p)
    /\ out p' = (out p ++ l)%list
    /\ (if d then wg p = S (wg p') else wg p' = wg p).
Proof.
  cbn. destruct (conns_of p !! k) as [c |] eqn:Hk; [| discriminate].
  destruct (pair_step e c) as [[[c' l] [|]] |] eqn:Hps; [| | discriminate].
  - destruct (wg p) as [| n] eqn:Hwg; cbn; [discriminate |].
    intros [= <-]. exists c, c', l, true. cbn. auto 10.
  - intros [= <-]. exists c, c', l, false. cbn. auto 10.
Qed.

(** *** [p.err] is never set

    [handleError] stores its argument only when [p.err] is already
    non-nil, and [p.err] starts nil. *)
Lemma err_stays_nil (p : proxy pair) :
  reachable p ->
  err p = None /\ forall r, pc p = MReturned r -> r = None.
Proof.
  revert p.
  apply (reachable_invariant
           (fun p => err p = None /\ forall r, pc p = MReturned r -> r = None)).
  - split; [reflexivity | discriminate].
  - intros q ev q' [Herr Hret] Hstep.
    destruct ev as [| [e |] | | | k e].
    + cbn in Hstep. destruct (pc q); inversion Hstep; subst; cbn.
      split; [assumption | discriminate].
    + cbn in Hstep. destruct (pc q); try discriminate.
      destruct (wg_Done (wg q)); inversion Hstep; subst; cbn.
      split; [assumption | discriminate].
    + cbn in Hstep. destruct (pc q); inversion Hstep; subst; cbn.
      split; [assumption | discriminate].
    + cbn in Hstep. destruct (herr q); try discriminate.
      rewrite Herr in Hstep. cbn in Hstep. inversion Hstep; subst; cbn.
      split; [reflexivity | exact Hret].
    + cbn in Hstep. destruct (pc q); try discriminate.
      destruct (wg q); inversion Hstep; subst; cbn.
      split; [assumption |]. intros r [= <-]. exact Herr.
    + apply step_conn_inv in Hstep
        as (c & c' & l & d & _ & _ & Hpc & He & _).
      rewrite Hpc, He. split; assumption.
Qed.

(** *** Invariants of the pairs *)

Section PairInvariant.
Variable pinv : pair -> Prop.
Hypothesis pinv_start : pinv start.
Hypothesis pinv_step :
  forall e c c' l d, pinv c -> pair_step e c = Some (c', l, d) -> pinv c'.

Lemma pairs_invariant (p : proxy pair) :
  reachable p -> forall k c, conns_of p !! k = Some c -> pinv c.
Proof.
  revert p.
  apply (reachable_invariant
           (fun p => forall k c, conns_of p !! k = Some c -> pinv c)).
  - intros k c. cbn. rewrite lookup_nil. discriminate.
  - intros q ev q' IH Hstep.
    destruct ev as [| [e |] | | | k e].
    + cbn in Hstep. destruct (pc q); inversion Hstep; subst; exact IH.
    + cbn in Hstep. destruct (pc q); try discriminate.
      destruct (wg_Done (wg q)); inversion Hstep; subst; exact IH.
    + cbn in Hstep. destruct (pc q); inversion Hstep; subst; cbn.
      intros k c Hk. apply lookup_app_Some in Hk as [Hk | [_ Hk]].
      * eapply IH; exact Hk.
      * apply list_lookup_singleton_Some in Hk as [_ <-]. exact pinv_start.
    + cbn in Hstep. destruct (herr q); try discriminate.
      destruct (handleError _ _). inversion Hstep; subst; exact IH.
    + cbn in Hstep. destruct (pc q); try discriminate.
      destruct (wg q); inversion Hstep; subst; exact IH.
    + apply step_conn_inv in Hstep
        as (c & c' & l & d & Hk & Hps & _ & _ & _ & Hconns & _).
      rewrite Hconns. intros j cj Hj.
      destruct (decide (k = j)) as [<- | Hne].
      * rewrite list_lookup_insert_eq in Hj
          by (eapply lookup_lt_Some; exact Hk).
        inversion Hj; subst. eapply pinv_step; [eapply IH; exact Hk | exact Hps].
      * rewrite list_lookup_insert_ne in Hj by exact Hne.
        eapply IH; exact Hj.
Qed.
End PairInvariant.

(** *** What [p.wg] counts *)

Section WaitGroup.
Variable returned : pair -> bool.
Hypothesis returned_start : returned start = false.
Hypothesis returned_step :
  forall e c c' l d, pair_step e c = Some (c', l, d) ->
    returned c' = returned c || d /\ (d = true -> returned c = false).

Abbreviation live := (Proxy.live returned).

Lemma live_app (l1 l2 : list pair) : live (l1 ++ l2) = live l1 + live l2.
Proof. induction l1 as [| c l1 IH]; cbn; [reflexivity | rewrite IH; lia]. Qed.

Lemma live_insert (l : list pair) k c c' :
  l !! k = Some c ->
  live (<[k := c']> l) + (if returned c then 0 else 1)
  = live l + (if returned c' then 0 else 1).
Proof.
  revert k. induction l as [| x l IH]; intros [| k] Hk; simpl in Hk |- *;
    try discriminate.
  - inversion Hk; subst. destruct (returned c), (returned c'); lia.
  - specialize (IH k Hk).
    destruct (returned x), (returned c), (returned c'); lia.
Qed.

Lemma live_zero (l : list pair) :
  live l = 0 <-> forall k c, l !! k = Some c -> returned c = true.
Proof.
  induction l as [| x l IH]; cbn.
  - split; [intros _ k c; rewrite lookup_nil; discriminate | reflexivity].
  - split.
    + intros H [| k] c Hk; cbn in Hk.
      * inversion Hk; subst. destruct (returned c); [reflexivity | lia].
      * apply IH in Hk; [exact Hk | destruct (returned x); lia].
    + intros H. rewrite (H 0 x eq_refl). cbn.
      apply IH. intros k c Hk. exact (H (S k) c Hk).
Qed.

Lemma live_pos (l : list pair) k c :
  l !! k = Some c -> returned c = false -> 0 < live l.
Proof.
  revert k. induction l as [| x l IH]; intros [| k] Hk Hr; simpl in Hk |- *;
    try discriminate.
  - inversion Hk; subst. rewrite Hr. lia.
  - specialize (IH k Hk Hr). destruct (returned x); lia.
Qed.

(** The counter of [p.wg] is the number of goroutines that still owe it
    a [Done]: the accept loop and every [handleConn] that has not
    returned.  In particular no [Done] panics. *)
Lemma wg_counts (p : proxy pair) :
  reachable p -> wg p = accepting (pc p) + live (conns_of p).
Proof.
  revert p.
  apply (reachable_invariant
           (fun p => wg p = accepting (pc p) + live (conns_of p))).
  - reflexivity.
  - intros q ev q' IH Hstep.
    destruct ev as [| [e |] | | | k e].
    + cbn in Hstep. destruct (pc q) eqn:Hpc; inversion Hstep; subst; cbn in *.
      lia.
    + cbn in Hstep. destruct (pc q) eqn:Hpc; try discriminate.
      destruct (wg q) eqn:Hwg; inversion Hstep; subst; cbn in *. lia.
    + cbn in Hstep. destruct (pc q) eqn:Hpc; inversion Hstep; subst; cbn in *.
      rewrite live_app. cbn. rewrite returned_start. lia.
    + cbn in Hstep. destruct (herr q); try discriminate.
      destruct (handleError _ _). inversion Hstep; subst; exact IH.
    + cbn in Hstep. destruct (pc q) eqn:Hpc; try discriminate.
      destruct (wg q) eqn:Hwg; inversion Hstep; subst; cbn in *. lia.
    + apply step_conn_inv in Hstep
        as (c & c' & l & d & Hk & Hps & Hpc & _ & _ & Hconns & _ & Hwg).
      rewrite Hpc, Hconns.
      pose proof (live_insert _ _ _ c' Hk) as Hlive.
      destruct (returned_step _ _ _ _ _ Hps) as [Hret Hd].
      destruct d.
      * rewrite (Hd eq_refl) in Hret, Hlive. cbn in Hret.
        rewrite Hret in Hlive. lia.
      * rewrite orb_false_r in Hret. rewrite Hret in Hlive.
        destruct (returned c); lia.
Qed.

(** [p.run()] returns only when every [handleConn] has returned. *)
Lemma returned_after_all (p : proxy pair) :
  reachable p ->
  forall r, pc p = MReturned r ->
  forall k c, conns_of p !! k = Some c -> returned c = true.
Proof.
  intros Hreach r Hpc. apply live_zero.
  revert p Hreach r Hpc.
  enough (forall p, reachable p ->
            (forall r, pc p = MReturned r -> live (conns_of p) = 0)
            /\ wg p = accepting (pc p) + live (conns_of p)) as H
    by (intros p Hp; apply (H p Hp)).
  apply (reachable_invariant
           (fun p => (forall r, pc p = MReturned r -> live (conns_of p) = 0)
                     /\ wg p = accepting (pc p) + live (conns_of p))).
  - split; [discriminate | reflexivity].
  - intros q ev q' [IH Hwg] Hstep.
    destruct ev as [| [e |] | | | k e].
    + cbn in Hstep. destruct (pc q) eqn:Hpc; inversion Hstep; subst; cbn in *.
      split; [discriminate | lia].
    + cbn in Hstep. destruct (pc q) eqn:Hpc; try discriminate.
      destruct (wg q) eqn:Hw; inversion Hstep; subst; cbn in *.
      split; [discriminate | lia].
    + cbn in Hstep. destruct (pc q) eqn:Hpc; inversion Hstep; subst; cbn in *.
      split; [discriminate |].
      rewrite live_app. cbn. rewrite returned_start. lia.
    + cbn in Hstep. destruct (herr q); try discriminate.
      destruct (handleError _ _). inversion Hstep; subst; cbn. split; assumption.
    + cbn in Hstep. destruct (pc q) eqn:Hpc; try discriminate.
      destruct (wg q) eqn:Hw; inversion Hstep; subst; cbn in *.
      split; [intros _ _; lia | lia].
    + apply step_conn_inv in Hstep
        as (c & c' & l & d & Hk & Hps & Hpc & _ & _ & Hconns & _ & Hw).
      rewrite Hpc, Hconns.
      pose proof (live_insert _ _ _ c' Hk) as Hlive.
      destruct (returned_step _ _ _ _ _ Hps) as [Hret Hd].
      destruct d.
      * rewrite (Hd eq_refl) in Hret, Hlive. cbn in Hret.
        rewrite Hret in Hlive. split; [| lia].
        intros r Hr. specialize (IH r Hr). lia.
      * rewrite orb_false_r in Hret. rewrite Hret in Hlive.
        split; [| destruct (returned c); lia].
        intros r Hr. specialize (IH r Hr). destruct (returned c); lia.
Qed.
End WaitGroup.

End Facts.
End ProxyFacts.

(** ** [io.Copy] between the two connections *)

Module SpliceFacts.

Lemma prefix_take_pending (s : stream) (n : nat) :
  delivered s `prefix_of` sent s ->
  (delivered s ++ take n (pending s)) `prefix_of` sent s.
Proof.
  intros [k Hk]. unfold pending. rewrite Hk, drop_app_length.
  exists (drop n k). rewrite <- app_assoc, take_drop. reflexivity.
Qed.

Lemma pending_nil (s : stream) :
  delivered s `prefix_of` sent s -> length (pending s) = 0 ->
  delivered s = sent s.
Proof.
  intros [k Hk]. unfold pending. rewrite Hk, drop_app_length.
  intros Hlen. destruct k; [| discriminate]. rewrite app_nil_r. reflexivity.
Qed.

(** What a peer does changes its own stream and nothing else, and a peer
    that has closed its writing side writes no more. *)
Lemma peer_step_inv (e : peer_event) (c c' : conns) :
  peer_step e c = Some c' ->
  in_closed c' = in_closed c /\ dialed c' = dialed c
  /\ out_closed c' = out_closed c
  /\ copy_fwd c' = copy_fwd c /\ copy_back c' = copy_back c
  /\ (forall d, delivered (get_stream d c') = delivered (get_stream d c))
  /\ (forall d, eof (get_stream d c) = true -> get_stream d c' = get_stream d c)
  /\ (forall d, exists bs, sent (get_stream d c') = sent (get_stream d c) ++ bs).
Proof.
  unfold peer_step.
  destruct (eof (get_stream (peer_dir e) c)) eqn:Heof; [discriminate |].
  destruct e as [[|] bs | [|]]; cbn in *;
    try (destruct (dialed c) eqn:Hd; [| discriminate]);
    intros [= <-]; cbn; repeat split; auto;
    intros [|]; cbn; try congruence;
    solve [ eexists; reflexivity | exists []; rewrite app_nil_r; reflexivity ].
Qed.

Lemma peer_step_ok (e : peer_event) (c c' : conns) :
  conns_ok c -> peer_step e c = Some c' -> conns_ok c'.
Proof.
  intros [[Hpf Hef] [Hpb Heb]] Hstep.
  destruct (peer_step_inv _ _ _ Hstep)
    as (_ & _ & _ & Htf & Htb & Hdel & Hsame & Hsent).
  unfold conns_ok, stream_ok. rewrite Htf, Htb.
  pose proof (Hdel Fwd) as Hdf. pose proof (Hdel Back) as Hdb.
  destruct (Hsent Fwd) as [bf Hbf]. destruct (Hsent Back) as [bb Hbb].
  cbn in Hdf, Hdb, Hbf, Hbb.
  split; split.
  - rewrite Hdf, Hbf. apply prefix_app_r. exact Hpf.
  - intros Ht. destruct (Hef Ht) as [He Heq].
    rewrite (Hsame Fwd He : fwd c' = fwd c). auto.
  - rewrite Hdb, Hbb. apply prefix_app_r. exact Hpb.
  - intros Ht. destruct (Heb Ht) as [He Heq].
    rewrite (Hsame Back He : back c' = back c). auto.
Qed.

(** Closes a goal about the direction other than the one that moved. *)
Ltac other_dir :=
  match goal with
  | Hne : ?d' <> _ |- _ => destruct d'; first [contradiction | reflexivity]
  end.

(** Case analysis of a step of a copy goroutine. *)
Lemma copy_step_inv (d : dir) (e : copy_event) (c c' : conns) l fin :
  copy_step d e c = Some (c', l, fin) ->
  get_task d c = Copying
  /\ in_closed c' = in_closed c /\ dialed c' = dialed c
  /\ out_closed c' = out_closed c
  /\ (forall d', d' <> d ->
        get_task d' c' = get_task d' c /\ get_stream d' c' = get_stream d' c)
  /\ sent (get_stream d c') = sent (get_stream d c)
  /\ eof (get_stream d c') = eof (get_stream d c)
  /\ (if fin then
        exists h, get_task d c' = Finished h /\ l = copy_log d h
          /\ get_stream d c' = get_stream d c
          /\ match h with
             | EndEOF => eof (get_stream d c) = true
                         /\ length (pending (get_stream d c)) = 0
                         /\ src_closed d c = false
             | EndFault _ => True
             | EndClosed => src_closed d c || dst_closed d c = true
             end
      else
        get_task d c' = Copying /\ l = []
        /\ src_closed d c = false /\ dst_closed d c = false
        /\ exists n, delivered (get_stream d c')
                     = delivered (get_stream d c) ++ take n (pending (get_stream d c))).
Proof.
  intros H. destruct c as [ic dl oc sf sb tf tb].
  destruct d; unfold copy_step in H; cbn in H |- *.
  - destruct tf; try discriminate.
    destruct e as [n | | e |]; cbn [io_Copy_step] in H.
    + destruct ic; [discriminate |]. destruct oc; [discriminate |]. cbn [orb andb] in H.
      destruct ((0 <? n)%nat && (n <=? length (pending sf))%nat); [| discriminate].
      injection H as <- <- <-. cbn. repeat split; auto; try other_dir.
      exists n. reflexivity.
    + destruct ic; [discriminate |]. destruct (eof sf) eqn:He; [| discriminate].
      destruct (length (pending sf) =? 0)%nat eqn:Hp; [| discriminate]. cbn [orb andb] in H.
      apply Nat.eqb_eq in Hp.
      injection H as <- <- <-. cbn. repeat split; auto; try other_dir.
      exists EndEOF. auto 10.
    + injection H as <- <- <-. cbn. repeat split; auto; try other_dir.
      exists (EndFault e). auto 10.
    + destruct (ic || oc && (0 <? length (pending sf))%nat) eqn:Hcl; [| discriminate].
      injection H as <- <- <-. cbn. repeat split; auto; try other_dir.
      exists EndClosed. repeat split; auto.
        destruct ic, oc; cbn in *; congruence.
  - destruct tb; try discriminate.
    destruct e as [n | | e |]; cbn [io_Copy_step] in H.
    + destruct oc; [discriminate |]. destruct ic; [discriminate |]. cbn [orb andb] in H.
      destruct ((0 <? n)%nat && (n <=? length (pending sb))%nat); [| discriminate].
      injection H as <- <- <-. cbn. repeat split; auto; try other_dir.
      exists n. reflexivity.
    + destruct oc; [discriminate |]. destruct (eof sb) eqn:He; [| discriminate].
      destruct (length (pending sb) =? 0)%nat eqn:Hp; [| discriminate]. cbn [orb andb] in H.
      apply Nat.eqb_eq in Hp.
      injection H as <- <- <-. cbn. repeat split; auto; try other_dir.
      exists EndEOF. auto 10.
    + injection H as <- <- <-. cbn. repeat split; auto; try other_dir.
      exists (EndFault e). auto 10.
    + destruct (oc || ic && (0 <? length (pending sb))%nat) eqn:Hcl; [| discriminate].
      injection H as <- <- <-. cbn. repeat split; auto; try other_dir.
      exists EndClosed. repeat split; auto.
        destruct ic, oc; cbn in *; congruence.
Qed.

Lemma copy_step_ok (d : dir) (e : copy_event) (c c' : conns) l fin :
  conns_ok c -> copy_step d e c = Some (c', l, fin) -> conns_ok c'.
Proof.
  intros Hok Hstep.
  destruct (copy_step_inv _ _ _ _ _ _ Hstep)
    as (Ht & _ & _ & _ & Hother & Hsent & Heof & Hfin).
  assert (Hd : stream_ok (get_task d c') (get_stream d c')).
  { assert (Hold : stream_ok (get_task d c) (get_stream d c))
      by (destruct Hok; destruct d; assumption).
    destruct Hold as [Hpre _]. unfold stream_ok.
    destruct fin.
    - destruct Hfin as (h & Ht' & _ & Hs & Hh). rewrite Ht', Hs.
      split; [exact Hpre |]. intros [= ->].
      destruct Hh as (He & Hp & _). split; [exact He |].
      apply pending_nil; assumption.
    - destruct Hfin as (Ht' & _ & _ & _ & n & Hdel). rewrite Ht', Hdel, Hsent.
      split; [apply prefix_take_pending; exact Hpre | discriminate]. }
  destruct Hok as [Hf Hb].
  destruct d; split; try exact Hd.
  - destruct (Hother Back) as [H1 H2]; [discriminate |].
    cbn in H1, H2. rewrite H1, H2. exact Hb.
  - destruct (Hother Fwd) as [H1 H2]; [discriminate |].
    cbn in H1, H2. rewrite H1, H2. exact Hf.
Qed.

Lemma conns_ok_accepted : conns_ok accepted.
Proof.
  repeat split; cbn; try discriminate; apply prefix_nil.
Qed.

Lemma conns_ok_spliced (c : conns) : conns_ok c -> conns_ok (spliced c).
Proof.
  intros [[Hf _] [Hb _]]. repeat split; cbn; auto; discriminate.
Qed.

End SpliceFacts.

(** ** [handleConn] without contexts *)

Module Part001Facts.
Import SpliceFacts Part001.

Lemma part001_returned_start : returned handleConn_start = false.
Proof. reflexivity. Qed.

Lemma part001_returned_step e c c' l d :
  pair_step e c = Some (c', l, d) ->
  returned c' = returned c || d /\ (d = true -> returned c = false).
Proof.
  unfold returned.
  destruct e as [[e |] | e | dr e |]; cbn.
  - destruct (hc c); try discriminate. intros [= <- <- <-]. auto.
  - destruct (hc c); try discriminate. intros [= <- <- <-]. cbn.
    split; [reflexivity | discriminate].
  - destruct (peer_step e (sp c)); try discriminate. intros [= <- <- <-]. cbn.
    rewrite orb_false_r. split; [reflexivity | discriminate].
  - destruct (copy_step dr e (sp c)) as [[[c0 l0] [|]] |]; try discriminate.
    + destruct (wg_Done (lwg c)); try discriminate. intros [= <- <- <-]. cbn.
      rewrite orb_false_r. split; [reflexivity | discriminate].
    + intros [= <- <- <-]. cbn.
      rewrite orb_false_r. split; [reflexivity | discriminate].
  - destruct (hc c); try discriminate. destruct (lwg c); try discriminate.
    intros [= <- <- <-]. auto.
Qed.

Lemma part001_pair_inv_start : pair_inv handleConn_start.
Proof.
  split; [apply conns_ok_accepted | cbn; auto 10].
Qed.

Lemma task_clean_copying (t : copy_task) :
  task_clean t -> copying t = 0 -> finished t = true.
Proof.
  intros [Hns _]. destruct t; cbn; congruence.
Qed.

Lemma part001_pair_inv_step e c c' l d :
  pair_inv c -> pair_step e c = Some (c', l, d) -> pair_inv c'.
Proof.
  intros [Hok Hpc] Hstep.
  destruct e as [[e |] | e | dr e |]; cbn in Hstep.
  - (* the dial failed *)
    destruct (hc c) eqn:Hhc; try discriminate.
    injection Hstep as <- <- <-.
    split; [exact Hok |]. cbn. intuition congruence.
  - (* the dial succeeded *)
    destruct (hc c) eqn:Hhc; try discriminate.
    injection Hstep as <- <- <-.
    destruct Hpc as (Hw & Hd & Hi & Ho & _).
    split; [apply conns_ok_spliced; exact Hok |]. cbn. rewrite Hw.
    unfold task_clean. intuition congruence.
  - (* a peer writes or closes *)
    destruct (peer_step e (sp c)) as [c0 |] eqn:Hps; try discriminate.
    injection Hstep as <- <- <-.
    pose proof (peer_step_ok _ _ _ Hok Hps) as Hok'.
    destruct (peer_step_inv _ _ _ Hps) as (Hi & Hd & Ho & Hf & Hb & _).
    split; [exact Hok' |]. cbn. rewrite Hi, Hd, Ho, Hf, Hb. exact Hpc.
  - (* a copy goroutine moves *)
    destruct (copy_step dr e (sp c)) as [[[c0 l0] fin] |] eqn:Hcs;
      try discriminate.
    pose proof (copy_step_ok _ _ _ _ _ _ Hok Hcs) as Hok'.
    destruct (copy_step_inv _ _ _ _ _ _ Hcs)
      as (Ht & Hi & Hd & Ho & Hother & _ & _ & Hfin).
    assert (Hhc : hc c = HWait).
    { destruct (hc c) eqn:Hhc; [| reflexivity |].
      - destruct Hpc as (_ & _ & _ & _ & Hf & Hb).
        destruct dr; cbn in Ht; congruence.
      - destruct Hpc as (_ & _ & Hfinished & Hnot).
        destruct (dialed (sp c)) eqn:Hdl.
        + destruct (Hfinished eq_refl) as (Hf & Hb & _).
          destruct dr; cbn in Ht; rewrite Ht in *; discriminate.
        + destruct (Hnot eq_refl) as (Hf & Hb).
          destruct dr; cbn in Ht; congruence. }
    rewrite Hhc in Hpc. destruct Hpc as (Hw & Hdl & Hic & Hoc & Hcf & Hcb).
    assert (Hsrc : src_closed dr (sp c) || dst_closed dr (sp c) = false)
      by (destruct dr; cbn; rewrite Hic, Hoc; reflexivity).
    destruct fin.
    + destruct Hfin as (h & Ht' & _ & _ & Hh).
      assert (Hne : h <> EndClosed) by (intros ->; congruence).
      destruct (lwg c) as [| n] eqn:Hlwg; cbn in Hstep; [discriminate |].
      injection Hstep as <- <- <-.
      split; [exact Hok' |]. cbn. rewrite Hhc, Hi, Hd, Ho.
      unfold task_clean in *.
      destruct dr; cbn in Ht, Ht';
        [destruct (Hother Back) as [Hx _]; [discriminate |]
        | destruct (Hother Fwd) as [Hx _]; [discriminate |]];
        cbn in Hx; rewrite Hx, Ht'; rewrite Ht in Hw; cbn in Hw |- *;
        (repeat split; try tauto; try congruence; try lia).
    + destruct Hfin as (Ht' & _).
      injection Hstep as <- <- <-.
      split; [exact Hok' |]. cbn. rewrite Hhc, Hi, Hd, Ho.
      destruct dr; cbn in Ht, Ht';
        [destruct (Hother Back) as [Hx _]; [discriminate |]
        | destruct (Hother Fwd) as [Hx _]; [discriminate |]];
        cbn in Hx; rewrite Hx, Ht'; rewrite Ht in Hw, Hcf, Hcb || rewrite Ht in Hw;
        unfold task_clean in *;
        (repeat split; try tauto; try congruence; try lia).
  - (* wg.Wait() returns *)
    destruct (hc c) eqn:Hhc; try discriminate.
    destruct (lwg c) eqn:Hlwg; try discriminate.
    injection Hstep as <- <- <-.
    destruct Hpc as (Hw & Hdl & Hic & Hoc & Hcf & Hcb).
    split; [exact Hok |]. cbn. rewrite Hdl.
    split; [reflexivity |]. split; [reflexivity |].
    split; [intros _ | discriminate].
    split; [apply task_clean_copying; [exact Hcf | lia] |].
    split; [apply task_clean_copying; [exact Hcb | lia] |].
    split; assumption.
Qed.

End Part001Facts.

(** ** [handleConn] with contexts *)

Module MainGoFacts.
Import SpliceFacts MainGo.

Lemma maingo_returned_start : returned handleConn_start = false.
Proof. reflexivity. Qed.

Lemma maingo_returned_step e c c' l d :
  pair_step e c = Some (c', l, d) ->
  returned c' = returned c || d /\ (d = true -> returned c = false).
Proof.
  unfold returned.
  destruct e as [| [e |] | e | dr e | | | |]; cbn.
  - destruct (hc c); try discriminate. intros [= <- <- <-]. cbn.
    split; [reflexivity | discriminate].
  - destruct (hc c); try discriminate. intros [= <- <- <-]. auto.
  - destruct (hc c); try discriminate. intros [= <- <- <-]. cbn.
    split; [reflexivity | discriminate].
  - destruct (peer_step e (sp c)); try discriminate. intros [= <- <- <-]. cbn.
    rewrite orb_false_r. split; [reflexivity | discriminate].
  - destruct (copy_step dr e (sp c)) as [[[c0 l0] [|]] |]; try discriminate.
    + destruct (wg_Done (lwg c)); try discriminate. intros [= <- <- <-]. cbn.
      rewrite orb_false_r. split; [reflexivity | discriminate].
    + intros [= <- <- <-]. cbn.
      rewrite orb_false_r. split; [reflexivity | discriminate].
  - destruct (closer_in c); try discriminate.
    destruct (ctx_done c); try discriminate. intros [= <- <- <-]. cbn.
    rewrite orb_false_r. split; [reflexivity | discriminate].
  - destruct (closer_out c); try discriminate.
    destruct (ctx_done c); try discriminate. intros [= <- <- <-]. cbn.
    rewrite orb_false_r. split; [reflexivity | discriminate].
  - intros [= <- <- <-]. cbn.
    rewrite orb_false_r. split; [reflexivity | discriminate].
  - destruct (hc c); try discriminate. destruct (lwg c); try discriminate.
    intros [= <- <- <-]. auto.
Qed.

Lemma maingo_pair_inv_start : pair_inv handleConn_start.
Proof.
  split; [apply conns_ok_accepted | cbn; auto 10].
Qed.

Lemma maingo_pair_inv_step e c c' l d :
  pair_inv c -> pair_step e c = Some (c', l, d) -> pair_inv c'.
Proof.
  intros (Hok & Hin & Hout & Hpc & Hnd) Hstep.
  destruct e as [| [e |] | e | dr e | | | |]; cbn in Hstep.
  - (* the first statements *)
    destruct (hc c) eqn:Hhc; try discriminate.
    injection Hstep as <- <- <-.
    split; [exact Hok |]. cbn.
    destruct (closer_in c); destruct (closer_out c);
      intuition (try congruence; try lia).
  - (* the dial failed *)
    destruct (hc c) eqn:Hhc; try discriminate.
    injection Hstep as <- <- <-.
    split; [exact Hok |]. cbn.
    destruct (closer_in c); destruct (closer_out c);
      intuition (try congruence; try lia).
  - (* the dial succeeded *)
    destruct (hc c) eqn:Hhc; try discriminate.
    injection Hstep as <- <- <-.
    split; [apply conns_ok_spliced; exact Hok |]. cbn.
    destruct (closer_in c); destruct (closer_out c);
      intuition (try congruence; try lia).
  - (* a peer writes or closes *)
    destruct (peer_step e (sp c)) as [c0 |] eqn:Hps; try discriminate.
    injection Hstep as <- <- <-.
    pose proof (peer_step_ok _ _ _ Hok Hps) as Hok'.
    destruct (peer_step_inv _ _ _ Hps) as (Hi & Hd & Ho & Hf & Hb & _).
    split; [exact Hok' |]. cbn. rewrite Hi, Hd, Ho, Hf, Hb. auto.
  - (* a copy goroutine moves *)
    destruct (copy_step dr e (sp c)) as [[[c0 l0] fin] |] eqn:Hcs;
      try discriminate.
    pose proof (copy_step_ok _ _ _ _ _ _ Hok Hcs) as Hok'.
    destruct (copy_step_inv _ _ _ _ _ _ Hcs)
      as (Ht & Hi & Hd & Ho & Hother & _ & _ & Hfin).
    assert (Hdl : dialed (sp c) = true).
    { destruct (dialed (sp c)); [reflexivity |].
      destruct (Hnd eq_refl) as [Hf Hb]. destruct dr; cbn in Ht; congruence. }
    assert (Hhc : hc c = HWait).
    { destruct (hc c); try reflexivity; destruct Hpc; congruence. }
    rewrite Hhc in Hpc. destruct Hpc as (Hw & _ & Hcf & Hcb & Hctx).
    destruct fin.
    + destruct Hfin as (h & Ht' & _).
      destruct (lwg c) as [| n] eqn:Hlwg; cbn in Hstep; [discriminate |].
      injection Hstep as <- <- <-.
      split; [exact Hok' |]. cbn. rewrite Hhc, Hi, Hd, Ho.
      destruct dr; cbn in Ht, Ht';
        [destruct (Hother Back) as [Hx _]; [discriminate |]
        | destruct (Hother Fwd) as [Hx _]; [discriminate |]];
        cbn in Hx; rewrite Hx, Ht'; rewrite Ht in Hw; cbn in Hw |- *;
        destruct (closer_in c); destruct (closer_out c);
        intuition (try congruence; try lia).
    + destruct Hfin as (Ht' & _).
      injection Hstep as <- <- <-.
      split; [exact Hok' |]. cbn. rewrite Hhc, Hi, Hd, Ho.
      destruct dr; cbn in Ht, Ht';
        [destruct (Hother Back) as [Hx _]; [discriminate |]
        | destruct (Hother Fwd) as [Hx _]; [discriminate |]];
        cbn in Hx; rewrite Hx, Ht'; rewrite Ht in Hw, Hctx; cbn in Hw, Hctx |- *;
        destruct (closer_in c); destruct (closer_out c);
        intuition (try congruence; try lia).
  - (* in.Close() *)
    destruct (closer_in c) eqn:Hci; try discriminate.
    destruct (ctx_done c) eqn:Hcd; try discriminate.
    injection Hstep as <- <- <-.
    split; [exact Hok |]. cbn.
    destruct (closer_out c); destruct (hc c);
      intuition (try congruence; try lia).
  - (* out.Close() *)
    destruct (closer_out c) eqn:Hco; try discriminate.
    destruct (ctx_done c) eqn:Hcd; try discriminate.
    injection Hstep as <- <- <-.
    split; [exact Hok |]. cbn.
    destruct (closer_in c); destruct (hc c);
      intuition (try congruence; try lia).
  - (* the parent context is cancelled *)
    injection Hstep as <- <- <-.
    split; [exact Hok |]. cbn.
    destruct (closer_in c); destruct (closer_out c); destruct (hc c);
      intuition (try congruence; try lia).
  - (* wg.Wait() cannot return: the counter is at least two *)
    destruct (hc c) eqn:Hhc; try discriminate.
    destruct (lwg c) eqn:Hlwg; try discriminate.
    destruct Hpc as (Hw & _). lia.
Qed.

End MainGoFacts.

(* ===================================================================== *)
(** * Part III: the claims of the specification *)
(* ===================================================================== *)

Import ProxyFacts SpliceFacts.

(** ** The address classifier *)

(** C6: the address classifier is total on strings and has no error case:
    an address is a local-socket address (network "unix") exactly when it
    contains the path separator '/', and a network address (network "tcp")
    otherwise; "127.0.0.1:8080" and "example:9000" are network addresses,
    "/tmp/sock" and "./sock" are local-socket addresses. *)
Theorem classifier_by_slash :
  (forall addr,
      isUnixSocket addr = true <-> In "/"%char (String.list_ascii_of_string addr))
  /\ (forall addr,
      isUnixSocket addr = false <-> ~ In "/"%char (String.list_ascii_of_string addr))
  /\ (forall addr,
      network_of addr = "unix" <-> In "/"%char (String.list_ascii_of_string addr))
  /\ (forall addr,
      network_of addr = "tcp" <-> ~ In "/"%char (String.list_ascii_of_string addr))
  /\ isUnixSocket "127.0.0.1:8080" = false
  /\ isUnixSocket "example:9000" = false
  /\ isUnixSocket "/tmp/sock" = true
  /\ isUnixSocket "./sock" = true.
Proof.
  split; [exact isUnixSocket_true |].
  split; [exact isUnixSocket_false |].
  split; [| split].
  - intros addr. rewrite <- isUnixSocket_true. unfold network_of.
    destruct (isUnixSocket addr); split; congruence.
  - intros addr. rewrite <- isUnixSocket_false. unfold network_of.
    destruct (isUnixSocket addr); split; congruence.
  - repeat split; reflexivity.
Qed.

(** C9: edge cases of the classifier: the empty string and any string
    without a slash, of host:port form or not, are network addresses; a
    string with a slash anywhere is a local-socket address, also when it
    looks like host:port, such as "example.com/x:80"; the result depends on
    nothing but the presence of the byte '/'. *)
Theorem classifier_edge_cases :
  isUnixSocket "" = false
  /\ isUnixSocket "no port here" = false
  /\ isUnixSocket "a:b:c\d" = false
  /\ isUnixSocket "example.com/x:80" = true
  /\ isUnixSocket "host:80/" = true
  /\ (forall a b : string, isUnixSocket (a ++ String "/" b) = true)
  /\ (forall addr,
      isUnixSocket addr
      = existsb (Ascii.eqb "/") (String.list_ascii_of_string addr)).
Proof.
  repeat split; try reflexivity.
  - exact isUnixSocket_app.
  - exact isUnixSocket_existsb.
Qed.

(** ** The terminal error *)

Lemma handleErrors_nil (errs : list (option error)) :
  fst (handleErrors errs None) = None.
Proof.
  induction errs as [| e errs IH]; cbn; [reflexivity |].
  destruct (handleErrors errs None). exact IH.
Qed.

(** C5: [handleError] does not keep the first error.  On a nil [p.err] it
    logs its argument and stores nothing, so [p.err] stays nil whatever
    the sequence of calls; on a non-nil [p.err] it overwrites it with the
    later error and logs nothing.  The test [p.err == nil] is the negation
    of what the function's comment describes. *)
Theorem handleError_loses_first_error :
  (forall err,
      handleError err None
      = (None, [Printf "ERROR: ignored error: %v" (ArgErr err)]))
  /\ (forall err e0, handleError err (Some e0) = (err, []))
  /\ (forall errs, fst (handleErrors errs None) = None)
  /\ handleErrors [Some (ErrMsg "first"); Some (ErrMsg "second")] None
     = (None, [Printf "ERROR: ignored error: %v" (ArgErr (Some (ErrMsg "first")));
               Printf "ERROR: ignored error: %v" (ArgErr (Some (ErrMsg "second")))])
  /\ handleErrors [Some (ErrMsg "second")] (Some (ErrMsg "first"))
     = (Some (ErrMsg "second"), []).
Proof.
  repeat split; try reflexivity. exact handleErrors_nil.
Qed.

(** Whatever the schedule and the environment, [p.run()] returns nil. *)
Lemma Part001_run_returns_nil (p : Part001.state) (r : option error) :
  Part001.reachable p -> pc p = MReturned r -> r = None.
Proof. intros Hp. apply (err_stays_nil _ _ p Hp). Qed.

Lemma MainGo_run_returns_nil (p : MainGo.state) (r : option error) :
  MainGo.reachable p -> pc p = MReturned r -> r = None.
Proof. intros Hp. apply (err_stays_nil _ _ p Hp). Qed.

(** C1: when [Accept] fails with [e], the accept loop ends, but [p.run()]
    returns nil and not the error that wraps [e]: [handleError] only logs
    it as ignored, whether it runs before or after [p.wg.Wait()] returns.
    The same holds in both variants. *)
Theorem run_returns_nil_after_accept_failure (e : error) :
  let ignored := Printf "ERROR: ignored error: %v" (ArgErr (Some (accept_error e))) in
  Part001.exec [EvRun; EvAccept (Some e); EvHandleError; EvWait] init
  = Some (Proxy (MReturned None) 0 None HEDone [] [ignored])
  /\ Part001.exec [EvRun; EvAccept (Some e); EvWait; EvHandleError] init
     = Some (Proxy (MReturned None) 0 None HEDone [] [ignored])
  /\ MainGo.exec [EvRun; EvAccept (Some e); EvHandleError; EvWait] init
     = Some (Proxy (MReturned None) 0 None HEDone [] [ignored])
  /\ MainGo.exec [EvRun; EvAccept (Some e); EvWait; EvHandleError] init
     = Some (Proxy (MReturned None) 0 None HEDone [] [ignored])
  /\ Unwrap (accept_error e) = Some e.
Proof. repeat split; reflexivity. Qed.

(** ** What [p.run()] waits for *)

(** The claim C7 fails on this run of part_001: [Accept] has failed while
    the pair is being spliced, and [p.run()] is blocked in [p.wg.Wait()];
    it cannot return now, and whenever it has returned the pair's
    [handleConn] has returned before. *)
Lemma run_blocked_by_spliced_pair :
  Part001.exec spliced_then_accept_fails init = Some waiting_on_pair
  /\ pc waiting_on_pair = MWait
  /\ conns_of waiting_on_pair !! 0
     = Some (Part001.Pair Part001.HWait 2 (spliced accepted))
  /\ Part001.step EvWait waiting_on_pair = None
  /\ (forall evs p' r c',
         Part001.exec evs waiting_on_pair = Some p' -> pc p' = MReturned r ->
         conns_of p' !! 0 = Some c' -> Part001.returned c' = true).
Proof.
  split; [reflexivity |]. split; [reflexivity |]. split; [reflexivity |].
  split; [reflexivity |].
  intros evs p' r c' Hexec Hpc Hc'.
  assert (Hreach : Part001.reachable p').
  { eapply reachable_exec; [| exact Hexec].
    exists spliced_then_accept_fails. reflexivity. }
  exact (returned_after_all _ _ _ Part001Facts.part001_returned_start
           Part001Facts.part001_returned_step p' Hreach r Hpc 0 c' Hc').
Qed.

Section WaitExactly.
Context {pair pair_event : Type}.
Variable start : pair.
Variable pair_step : pair_event -> pair -> option (pair * list logline * bool).
Variable returned : pair -> bool.
Hypothesis returned_start : returned start = false.
Hypothesis returned_step :
  forall e c c' l d, pair_step e c = Some (c', l, d) ->
    returned c' = returned c || d /\ (d = true -> returned c = false).

(** Once the accept loop is over, [p.wg.Wait()] returns exactly when every
    [handleConn] has returned. *)
Lemma wait_enabled (p : proxy pair) :
  Proxy.reachable start pair_step p -> pc p = MWait ->
  (Proxy.step start pair_step EvWait p <> None
   <-> forall k c, conns_of p !! k = Some c -> returned c = true).
Proof.
  intros Hreach Hpc.
  pose proof (wg_counts _ _ _ returned_start returned_step p Hreach) as Hwg.
  rewrite Hpc in Hwg. cbn in Hwg.
  rewrite <- (live_zero returned). cbn. rewrite Hpc.
  destruct (wg p); split; intros H; try congruence; try lia.
Qed.
End WaitExactly.

(** C7, as the code has it: [p.run()] blocks until the accept loop has ended
    and every [handleConn] goroutine has returned, since [p.wg] counts them
    all; it returns only then, and [p.wg.Wait()] lets it return exactly
    then.  The same holds in both variants. *)
Theorem run_waits_for_every_handleConn :
  (forall (p : Part001.state) r,
      Part001.reachable p -> pc p = MReturned r ->
      forall k c, conns_of p !! k = Some c -> Part001.returned c = true)
  /\ (forall (p : MainGo.state) r,
      MainGo.reachable p -> pc p = MReturned r ->
      forall k c, conns_of p !! k = Some c -> MainGo.returned c = true)
  /\ (forall p : Part001.state,
      Part001.reachable p -> pc p = MWait ->
      (Part001.step EvWait p <> None
       <-> forall k c, conns_of p !! k = Some c -> Part001.returned c = true))
  /\ (forall p : MainGo.state,
      MainGo.reachable p -> pc p = MWait ->
      (MainGo.step EvWait p <> None
       <-> forall k c, conns_of p !! k = Some c -> MainGo.returned c = true)).
Proof.
  split; [| split; [| split]].
  - intros p r Hp Hr.
    exact (returned_after_all _ _ _ Part001Facts.part001_returned_start
             Part001Facts.part001_returned_step p Hp r Hr).
  - intros p r Hp Hr.
    exact (returned_after_all _ _ _ MainGoFacts.maingo_returned_start
             MainGoFacts.maingo_returned_step p Hp r Hr).
  - exact (wait_enabled _ _ _ Part001Facts.part001_returned_start
             Part001Facts.part001_returned_step).
  - exact (wait_enabled _ _ _ MainGoFacts.maingo_returned_start
             MainGoFacts.maingo_returned_step).
Qed.

Lemma run_waits_for_every_handleConn_witness :
  Part001.reachable run_has_returned
  /\ pc run_has_returned = MReturned None
  /\ conns_of run_has_returned !! 0
     = Some (Part001.Pair Part001.HReturned 0 (close_in accepted))
  /\ Part001.returned (Part001.Pair Part001.HReturned 0 (close_in accepted)) = true.
Proof.
  assert (Hreach : Part001.reachable run_has_returned)
    by (exists dial_fails_then_accept_fails; reflexivity).
  split; [exact Hreach |]. split; [reflexivity |]. split; [reflexivity |].
  apply (proj1 run_waits_for_every_handleConn run_has_returned None Hreach
           eq_refl 0).
  reflexivity.
Defined.

(** ** A failed dial *)

(** In part_001 the step in which the connector fails closes the inbound
    connection and makes [handleConn] return; nothing else changes. *)
Lemma Part001_dial_failure (p : Part001.state) k c e :
  Part001.reachable p -> conns_of p !! k = Some c ->
  Part001.hc c = Part001.HDial ->
  exists p',
    Part001.step (EvConn k (Part001.Dial (Some e))) p = Some p'
    /\ conns_of p' !! k
       = Some (Part001.Pair Part001.HReturned (Part001.lwg c) (close_in (Part001.sp c)))
    /\ err p' = err p /\ pc p' = pc p
    /\ out p' = out p ++ [dial_failed_log e]
    /\ (forall j, j <> k -> conns_of p' !! j = conns_of p !! j)
    /\ (pc p = MAccept -> forall a, Part001.step (EvAccept a) p' <> None).
Proof.
  intros Hreach Hk Hhc.
  pose proof (wg_counts _ _ _ Part001Facts.part001_returned_start
                Part001Facts.part001_returned_step p Hreach) as Hwg.
  assert (Hlive : 0 < live Part001.returned (conns_of p)).
  { eapply live_pos; [exact Hk |]. unfold Part001.returned. rewrite Hhc.
    reflexivity. }
  destruct (wg p) as [| n] eqn:Hn; [lia |].
  eexists. split.
  { cbn. rewrite Hk. cbn. rewrite Hhc, Hn. cbn. reflexivity. }
  cbn. split.
  { apply list_lookup_insert_eq. eapply lookup_lt_Some. exact Hk. }
  split; [reflexivity |]. split; [reflexivity |]. split; [reflexivity |].
  split.
  { intros j Hj. apply list_lookup_insert_ne. congruence. }
  intros Hpc [a |]; rewrite Hpc; cbn; [| discriminate].
  rewrite Hpc in Hwg. cbn in Hwg.
  destruct n; [lia | discriminate].
Qed.

(** In main.go the step in which the connector fails cancels the pair's
    context and makes [handleConn] return; the goroutine that waits on the
    context then closes the inbound connection, unless it has done so. *)
Lemma MainGo_dial_failure (p : MainGo.state) k c e :
  MainGo.reachable p -> conns_of p !! k = Some c ->
  MainGo.hc c = MainGo.HDial ->
  exists p' c',
    MainGo.step (EvConn k (MainGo.Dial (Some e))) p = Some p'
    /\ conns_of p' !! k = Some c'
    /\ MainGo.hc c' = MainGo.HReturned /\ MainGo.ctx_done c' = true
    /\ err p' = err p /\ pc p' = pc p
    /\ out p' = out p ++ [dial_failed_log e]
    /\ (forall j, j <> k -> conns_of p' !! j = conns_of p !! j)
    /\ (pc p = MAccept -> forall a, MainGo.step (EvAccept a) p' <> None)
    /\ (in_closed (MainGo.sp c') = true
        \/ exists p'' c'',
            MainGo.step (EvConn k MainGo.CloseIn) p' = Some p''
            /\ conns_of p'' !! k = Some c''
            /\ in_closed (MainGo.sp c'') = true
            /\ err p'' = err p /\ pc p'' = pc p
            /\ (forall j, j <> k -> conns_of p'' !! j = conns_of p !! j)).
Proof.
  intros Hreach Hk Hhc.
  pose proof (wg_counts _ _ _ MainGoFacts.maingo_returned_start
                MainGoFacts.maingo_returned_step p Hreach) as Hwg.
  pose proof (pairs_invariant _ _ _ MainGoFacts.maingo_pair_inv_start
                MainGoFacts.maingo_pair_inv_step p Hreach k c Hk)
    as (_ & Hin & _).
  assert (Hlive : 0 < live MainGo.returned (conns_of p)).
  { eapply live_pos; [exact Hk |]. unfold MainGo.returned. rewrite Hhc.
    reflexivity. }
  assert (Hlt : k < length (conns_of p)) by (eapply lookup_lt_Some; exact Hk).
  destruct (wg p) as [| n] eqn:Hn; [lia |].
  eexists. eexists. split.
  { cbn. rewrite Hk. cbn. rewrite Hhc, Hn. cbn. reflexivity. }
  cbn. split; [apply list_lookup_insert_eq; exact Hlt |].
  split; [reflexivity |]. split; [reflexivity |].
  split; [reflexivity |]. split; [reflexivity |]. split; [reflexivity |].
  split.
  { intros j Hj. apply list_lookup_insert_ne. congruence. }
  split.
  { intros Hpc [a |]; rewrite Hpc; cbn; [| discriminate].
    rewrite Hpc in Hwg. cbn in Hwg.
    destruct n; [lia | discriminate]. }
  destruct (MainGo.closer_in c) eqn:Hci.
  - destruct Hin as [Hstart _]. congruence.
  - right. eexists. eexists. split.
    { cbn. rewrite list_lookup_insert_eq by exact Hlt. reflexivity. }
    cbn. split.
    { apply list_lookup_insert_eq. rewrite length_insert. exact Hlt. }
    split; [reflexivity |]. split; [reflexivity |]. split; [reflexivity |].
    intros j Hj. rewrite !list_lookup_insert_ne by congruence. reflexivity.
  - left. apply Hin.
Qed.

(** C2: a dial failure is per-pair recoverable.  For an accepted connection
    whose connector call fails, [handleConn] logs the failure, the inbound
    connection is closed (by a deferred [in.Close()] in part_001; in main.go
    by the goroutine that [handleConn] started for it, once the deferred
    [cancel()] has run), and [handleConn] returns; [p.err], the accept loop
    and the other pairs are untouched, and the accept loop can go on
    accepting. *)
Theorem dial_failure_is_per_pair :
  (forall (p : Part001.state) k c e,
      Part001.reachable p -> conns_of p !! k = Some c ->
      Part001.hc c = Part001.HDial ->
      exists p',
        Part001.step (EvConn k (Part001.Dial (Some e))) p = Some p'
        /\ conns_of p' !! k
           = Some (Part001.Pair Part001.HReturned (Part001.lwg c)
                     (close_in (Part001.sp c)))
        /\ err p' = err p /\ pc p' = pc p
        /\ out p' = out p ++ [dial_failed_log e]
        /\ (forall j, j <> k -> conns_of p' !! j = conns_of p !! j)
        /\ (pc p = MAccept -> forall a, Part001.step (EvAccept a) p' <> None))
  /\ (forall (p : MainGo.state) k c e,
      MainGo.reachable p -> conns_of p !! k = Some c ->
      MainGo.hc c = MainGo.HDial ->
      exists p' c',
        MainGo.step (EvConn k (MainGo.Dial (Some e))) p = Some p'
        /\ conns_of p' !! k = Some c'
        /\ MainGo.hc c' = MainGo.HReturned /\ MainGo.ctx_done c' = true
        /\ err p' = err p /\ pc p' = pc p
        /\ out p' = out p ++ [dial_failed_log e]
        /\ (forall j, j <> k -> conns_of p' !! j = conns_of p !! j)
        /\ (pc p = MAccept -> forall a, MainGo.step (EvAccept a) p' <> None)
        /\ (in_closed (MainGo.sp c') = true
            \/ exists p'' c'',
                MainGo.step (EvConn k MainGo.CloseIn) p' = Some p''
                /\ conns_of p'' !! k = Some c''
                /\ in_closed (MainGo.sp c'') = true
                /\ err p'' = err p /\ pc p'' = pc p
                /\ (forall j, j <> k -> conns_of p'' !! j = conns_of p !! j))).
Proof.
  split; [exact Part001_dial_failure | exact MainGo_dial_failure].
Qed.

Lemma dial_failure_is_per_pair_witness :
  Part001.reachable two_pairs
  /\ conns_of two_pairs !! 1 = Some Part001.handleConn_start
  /\ Part001.hc Part001.handleConn_start = Part001.HDial
  /\ exists p',
      Part001.step (EvConn 1 (Part001.Dial (Some (ErrMsg "connection refused"))))
        two_pairs = Some p'
      /\ conns_of p' !! 1
         = Some (Part001.Pair Part001.HReturned 0 (close_in accepted))
      /\ err p' = None /\ pc p' = MAccept
      /\ out p' = [dial_failed_log (ErrMsg "connection refused")]
      /\ (forall j, j <> 1 -> conns_of p' !! j = conns_of two_pairs !! j)
      /\ (pc two_pairs = MAccept ->
          forall a, Part001.step (EvAccept a) p' <> None).
Proof.
  assert (Hreach : Part001.reachable two_pairs)
    by (exists two_accepted; reflexivity).
  split; [exact Hreach |]. split; [reflexivity |]. split; [reflexivity |].
  exact (proj1 dial_failure_is_per_pair two_pairs 1 Part001.handleConn_start
           (ErrMsg "connection refused") Hreach eq_refl eq_refl).
Defined.

(** ** Tearing a pair down *)

(** In part_001 a copy goroutine that is still running has both
    connections open: nothing closes them before [wg.Wait()] returns. *)
Lemma Part001_open_while_copying (p : Part001.state) k c d :
  Part001.reachable p -> conns_of p !! k = Some c ->
  get_task d (Part001.sp c) = Copying ->
  Part001.hc c = Part001.HWait
  /\ in_closed (Part001.sp c) = false /\ out_closed (Part001.sp c) = false.
Proof.
  intros Hreach Hk Ht.
  pose proof (pairs_invariant _ _ _ Part001Facts.part001_pair_inv_start
                Part001Facts.part001_pair_inv_step p Hreach k c Hk) as [_ Hpc].
  destruct (Part001.hc c).
  - destruct Hpc as (_ & _ & _ & _ & Hf & Hb). destruct d; cbn in Ht; congruence.
  - tauto.
  - destruct Hpc as (_ & _ & Hfin & Hnot).
    destruct (dialed (Part001.sp c)).
    + destruct (Hfin eq_refl) as (Hf & Hb & _).
      destruct d; cbn in Ht; rewrite Ht in *; discriminate.
    + destruct (Hnot eq_refl) as (Hf & Hb). destruct d; cbn in Ht; congruence.
Qed.

(** The claim C4 fails on this run of part_001: one copy goroutine has
    finished, yet both connections are open and stay open for as long as
    the other one runs; the other copy goroutine is not unblocked and
    [handleConn] cannot return. *)
Lemma first_finish_closes_nothing :
  Part001.exec copy_back_ends_first init = Some half_finished
  /\ conns_of half_finished !! 0
     = Some (Part001.Pair Part001.HWait 1
               (Conns false true false empty_stream (Stream [] true [])
                      Copying (Finished EndEOF)))
  /\ Part001.step (EvConn 0 (Part001.Copy Fwd UseOfClosed)) half_finished = None
  /\ Part001.step (EvConn 0 (Part001.Copy Fwd ReadEOF)) half_finished = None
  /\ Part001.step (EvConn 0 Part001.Wait) half_finished = None
  /\ (forall evs p' c',
         Part001.exec evs half_finished = Some p' ->
         conns_of p' !! 0 = Some c' ->
         copy_fwd (Part001.sp c') = Copying ->
         in_closed (Part001.sp c') = false /\ out_closed (Part001.sp c') = false).
Proof.
  repeat (split; [reflexivity |]).
  intros evs p' c' Hexec Hc' Ht.
  assert (Hreach : Part001.reachable p').
  { eapply reachable_exec; [| exact Hexec].
    exists copy_back_ends_first. reflexivity. }
  apply (Part001_open_while_copying p' 0 c' Fwd Hreach Hc' Ht).
Qed.

(** In main.go [handleConn] does not return once the dial has succeeded:
    the local wait group was incremented for the two goroutines that close
    the connections, which never call [wg.Done()]. *)
Lemma MainGo_handleConn_stays_in_wait (p : MainGo.state) k c :
  MainGo.reachable p -> conns_of p !! k = Some c ->
  dialed (MainGo.sp c) = true ->
  MainGo.hc c = MainGo.HWait /\ 2 <= MainGo.lwg c
  /\ MainGo.pair_step MainGo.Wait c = None.
Proof.
  intros Hreach Hk Hd.
  pose proof (pairs_invariant _ _ _ MainGoFacts.maingo_pair_inv_start
                MainGoFacts.maingo_pair_inv_step p Hreach k c Hk)
    as (_ & _ & _ & Hpc & _).
  cbn. destruct (MainGo.hc c); try (destruct Hpc; congruence).
  destruct Hpc as (Hw & _). split; [reflexivity |]. split; [lia |].
  destruct (MainGo.lwg c); [lia | reflexivity].
Qed.

Lemma Part001_teardown (p : Part001.state) k c :
  Part001.reachable p -> conns_of p !! k = Some c ->
  (in_closed (Part001.sp c) = true \/ out_closed (Part001.sp c) = true ->
   Part001.hc c = Part001.HReturned)
  /\ (Part001.hc c = Part001.HReturned -> dialed (Part001.sp c) = true ->
      finished (copy_fwd (Part001.sp c)) = true
      /\ finished (copy_back (Part001.sp c)) = true
      /\ in_closed (Part001.sp c) = true /\ out_closed (Part001.sp c) = true)
  /\ (Part001.hc c = Part001.HWait ->
      finished (copy_fwd (Part001.sp c)) = true ->
      finished (copy_back (Part001.sp c)) = true ->
      exists p',
        Part001.step (EvConn k Part001.Wait) p = Some p'
        /\ conns_of p' !! k
           = Some (Part001.Pair Part001.HReturned 0
                     (close_in (close_out (Part001.sp c))))).
Proof.
  intros Hreach Hk.
  pose proof (pairs_invariant _ _ _ Part001Facts.part001_pair_inv_start
                Part001Facts.part001_pair_inv_step p Hreach k c Hk) as [_ Hpc].
  pose proof (wg_counts _ _ _ Part001Facts.part001_returned_start
                Part001Facts.part001_returned_step p Hreach) as Hwg.
  split; [| split].
  - intros Hcl. destruct (Part001.hc c); [| | reflexivity];
      destruct Hpc as (_ & _ & Hi & Ho & _); destruct Hcl; congruence.
  - intros Hhc Hd. rewrite Hhc in Hpc. destruct Hpc as (Hi & Ho & Hfin & _).
    destruct (Hfin Hd) as (Hf & Hb & _). rewrite Ho, Hd. auto.
  - intros Hhc Hf Hb. rewrite Hhc in Hpc. destruct Hpc as (Hw & _).
    assert (Hlwg : Part001.lwg c = 0).
    { destruct (copy_fwd (Part001.sp c)), (copy_back (Part001.sp c));
        cbn in *; congruence. }
    assert (Hlive : 0 < live Part001.returned (conns_of p)).
    { eapply live_pos; [exact Hk |]. unfold Part001.returned. rewrite Hhc.
      reflexivity. }
    destruct (wg p) as [| n] eqn:Hn; [lia |].
    eexists. split.
    + cbn. rewrite Hk. cbn. rewrite Hhc, Hlwg, Hn. cbn. reflexivity.
    + cbn. apply list_lookup_insert_eq. eapply lookup_lt_Some. exact Hk.
Qed.

Lemma MainGo_teardown (p : MainGo.state) k c :
  MainGo.reachable p -> conns_of p !! k = Some c ->
  (finished (copy_fwd (MainGo.sp c)) || finished (copy_back (MainGo.sp c)) = true ->
   MainGo.ctx_done c = true)
  /\ (in_closed (MainGo.sp c) = true \/ out_closed (MainGo.sp c) = true ->
      MainGo.ctx_done c = true)
  /\ (MainGo.ctx_done c = true -> dialed (MainGo.sp c) = true ->
      (in_closed (MainGo.sp c) = true
       \/ exists p' c',
           MainGo.step (EvConn k MainGo.CloseIn) p = Some p'
           /\ conns_of p' !! k = Some c' /\ in_closed (MainGo.sp c') = true)
      /\ (out_closed (MainGo.sp c) = true
          \/ exists p' c',
              MainGo.step (EvConn k MainGo.CloseOut) p = Some p'
              /\ conns_of p' !! k = Some c' /\ out_closed (MainGo.sp c') = true))
  /\ (forall d,
         get_task d (MainGo.sp c) = Copying ->
         src_closed d (MainGo.sp c) = true ->
         exists p' c',
           MainGo.step (EvConn k (MainGo.Copy d UseOfClosed)) p = Some p'
           /\ conns_of p' !! k = Some c'
           /\ get_task d (MainGo.sp c') = Finished EndClosed).
Proof.
  intros Hreach Hk.
  pose proof (pairs_invariant _ _ _ MainGoFacts.maingo_pair_inv_start
                MainGoFacts.maingo_pair_inv_step p Hreach k c Hk)
    as (_ & Hin & Hout & Hpc & Hnd).
  assert (Hlt : k < length (conns_of p)) by (eapply lookup_lt_Some; exact Hk).
  split; [| split; [| split]].
  - intros Hfin.
    destruct (dialed (MainGo.sp c)) eqn:Hd.
    + destruct (MainGo.hc c); try (destruct Hpc; congruence).
      destruct Hpc as (_ & _ & _ & _ & Hctx). auto.
    + destruct (Hnd eq_refl) as [Hf Hb]. rewrite Hf, Hb in Hfin. discriminate.
  - intros [Hi | Ho].
    + destruct (MainGo.closer_in c); destruct Hin as (? & ? & ?) || destruct Hin;
        congruence.
    + destruct (MainGo.closer_out c); destruct Hout as (? & ? & ?) || destruct Hout;
        congruence.
  - intros Hctx Hd. split.
    + destruct (MainGo.closer_in c) eqn:Hci.
      * destruct Hin as [Hs _].
        destruct (MainGo.hc c); try discriminate. destruct Hpc; congruence.
      * right. eexists. eexists. split.
        { cbn. rewrite Hk. cbn. rewrite Hci, Hctx. reflexivity. }
        cbn. split; [apply list_lookup_insert_eq; exact Hlt | reflexivity].
      * left. apply Hin.
    + destruct (MainGo.closer_out c) eqn:Hco.
      * destruct Hout; congruence.
      * right. eexists. eexists. split.
        { cbn. rewrite Hk. cbn. rewrite Hco, Hctx. reflexivity. }
        cbn. split; [apply list_lookup_insert_eq; exact Hlt | reflexivity].
      * left. apply Hout.
  - intros d Ht Hsrc.
    assert (Hd : dialed (MainGo.sp c) = true).
    { destruct (dialed (MainGo.sp c)); [reflexivity |].
      destruct (Hnd eq_refl) as [Hf Hb]. destruct d; cbn in Ht; congruence. }
    assert (Hlwg : exists n, MainGo.lwg c = S n).
    { destruct (MainGo.hc c); try (destruct Hpc; congruence).
      destruct Hpc as (Hw & _). rewrite Hw. eexists. reflexivity. }
    destruct Hlwg as [n Hn].
    eexists. eexists. split.
    { cbn. rewrite Hk. cbn. unfold copy_step. rewrite Ht. cbn. rewrite Hsrc. cbn.
      rewrite Hn. cbn. reflexivity. }
    cbn. split; [apply list_lookup_insert_eq; exact Hlt |].
    destruct d; reflexivity.
Qed.

(** C4, as the code has it.  In part_001 the two connections of a pair are
    closed together, by the deferred calls of [handleConn], which returns
    only after both copy goroutines have finished, and does return then.
    In main.go a copy goroutine that finishes cancels the pair's context;
    the two goroutines waiting on the context then close the inbound and
    the outbound connection, no connection is closed before the context is
    cancelled, and a copy goroutine whose source was closed terminates. *)
Theorem pair_teardown :
  (forall (p : Part001.state) k c,
      Part001.reachable p -> conns_of p !! k = Some c ->
      (in_closed (Part001.sp c) = true \/ out_closed (Part001.sp c) = true ->
       Part001.hc c = Part001.HReturned)
      /\ (Part001.hc c = Part001.HReturned -> dialed (Part001.sp c) = true ->
          finished (copy_fwd (Part001.sp c)) = true
          /\ finished (copy_back (Part001.sp c)) = true
          /\ in_closed (Part001.sp c) = true /\ out_closed (Part001.sp c) = true)
      /\ (Part001.hc c = Part001.HWait ->
          finished (copy_fwd (Part001.sp c)) = true ->
          finished (copy_back (Part001.sp c)) = true ->
          exists p',
            Part001.step (EvConn k Part001.Wait) p = Some p'
            /\ conns_of p' !! k
               = Some (Part001.Pair Part001.HReturned 0
                         (close_in (close_out (Part001.sp c))))))
  /\ (forall (p : MainGo.state) k c,
      MainGo.reachable p -> conns_of p !! k = Some c ->
      (finished (copy_fwd (MainGo.sp c)) || finished (copy_back (MainGo.sp c)) = true ->
       MainGo.ctx_done c = true)
      /\ (in_closed (MainGo.sp c) = true \/ out_closed (MainGo.sp c) = true ->
          MainGo.ctx_done c = true)
      /\ (MainGo.ctx_done c = true -> dialed (MainGo.sp c) = true ->
          (in_closed (MainGo.sp c) = true
           \/ exists p' c',
               MainGo.step (EvConn k MainGo.CloseIn) p = Some p'
               /\ conns_of p' !! k = Some c' /\ in_closed (MainGo.sp c') = true)
          /\ (out_closed (MainGo.sp c) = true
              \/ exists p' c',
                  MainGo.step (EvConn k MainGo.CloseOut) p = Some p'
                  /\ conns_of p' !! k = Some c'
                  /\ out_closed (MainGo.sp c') = true))
      /\ (forall d,
             get_task d (MainGo.sp c) = Copying ->
             src_closed d (MainGo.sp c) = true ->
             exists p' c',
               MainGo.step (EvConn k (MainGo.Copy d UseOfClosed)) p = Some p'
               /\ conns_of p' !! k = Some c'
               /\ get_task d (MainGo.sp c') = Finished EndClosed)).
Proof.
  split; [exact Part001_teardown | exact MainGo_teardown].
Qed.

Lemma pair_teardown_witness :
  MainGo.reachable main_cancelled
  /\ conns_of main_cancelled !! 0 = Some main_cancelled_pair
  /\ finished (copy_fwd (MainGo.sp main_cancelled_pair))
     || finished (copy_back (MainGo.sp main_cancelled_pair)) = true
  /\ MainGo.ctx_done main_cancelled_pair = true
  /\ (exists p' c',
         MainGo.step (EvConn 0 MainGo.CloseIn) main_cancelled = Some p'
         /\ conns_of p' !! 0 = Some c' /\ in_closed (MainGo.sp c') = true)
  /\ (exists p' c',
         MainGo.step (EvConn 0 MainGo.CloseOut) main_cancelled = Some p'
         /\ conns_of p' !! 0 = Some c' /\ out_closed (MainGo.sp c') = true).
Proof.
  assert (Hreach : MainGo.reachable main_cancelled)
    by (exists main_copy_back_ends; reflexivity).
  destruct (proj2 pair_teardown main_cancelled 0 main_cancelled_pair Hreach eq_refl)
    as (Hfin & _ & Hclose & _).
  split; [exact Hreach |]. split; [reflexivity |]. split; [reflexivity |].
  split; [exact (Hfin eq_refl) |].
  destruct (Hclose eq_refl eq_refl) as [[Hi | Hi] [Ho | Ho]];
    try discriminate Hi; try discriminate Ho.
  split; [exact Hi | exact Ho].
Defined.

(** ** What the splice delivers *)

Lemma Part001_delivers_all (p : Part001.state) k c :
  Part001.reachable p -> conns_of p !! k = Some c ->
  delivers_all (Part001.sp c).
Proof.
  intros Hreach Hk d Hd Hdst Hff.
  pose proof (pairs_invariant _ _ _ Part001Facts.part001_pair_inv_start
                Part001Facts.part001_pair_inv_step p Hreach k c Hk) as [Hok Hpc].
  destruct (Part001_teardown p k c Hreach Hk) as (Hclosed & _).
  assert (Hhc : Part001.hc c = Part001.HReturned).
  { apply Hclosed. destruct d; cbn in Hdst; auto. }
  rewrite Hhc in Hpc. destruct Hpc as (_ & _ & Hfin & _).
  destruct (Hfin Hd) as (Hf & Hb & [_ Hcf] & [_ Hcb]).
  assert (Ht : get_task d (Part001.sp c) = Finished EndEOF).
  { specialize (Hff d).
    destruct d; cbn in Hff |- *;
      [destruct (copy_fwd (Part001.sp c)) as [| | [| e |]]
      | destruct (copy_back (Part001.sp c)) as [| | [| e |]]];
      try discriminate; try reflexivity; try contradiction;
      exfalso; apply (Hff e); reflexivity. }
  destruct Hok as [Hsf Hsb].
  destruct d; cbn in Ht |- *; [apply Hsf | apply Hsb]; exact Ht.
Qed.

Lemma conns_ok_dir (c : conns) (d : dir) :
  conns_ok c ->
  delivered (get_stream d c) `prefix_of` sent (get_stream d c)
  /\ (get_task d c = Finished EndEOF ->
      eof (get_stream d c) = true
      /\ delivered (get_stream d c) = sent (get_stream d c)).
Proof. intros [Hf Hb]. destruct d; assumption. Qed.

(** The claim C3 fails on this run of main.go: no read or write has failed,
    the destination observes end-of-stream, and none of the three bytes the
    client wrote was delivered to it. *)
Lemma first_finish_drops_bytes :
  MainGo.exec main_back_ends_first init = Some main_truncated
  /\ conns_of main_truncated !! 0 = Some main_truncated_pair
  /\ fault_free (MainGo.sp main_truncated_pair)
  /\ dst_closed Fwd (MainGo.sp main_truncated_pair) = true
  /\ sent (get_stream Fwd (MainGo.sp main_truncated_pair)) = ["a"; "b"; "c"]%byte
  /\ delivered (get_stream Fwd (MainGo.sp main_truncated_pair)) = []
  /\ ~ delivers_all (MainGo.sp main_truncated_pair).
Proof.
  assert (Hff : fault_free (MainGo.sp main_truncated_pair))
    by (intros [|] e; discriminate).
  repeat (split; [reflexivity || exact Hff |]).
  intros H. specialize (H Fwd eq_refl eq_refl Hff). discriminate H.
Qed.

(** C3, as the code has it.  What the relay has written to one side is
    always an initial segment of what the other side wrote: the same bytes
    in the same order, none twice; it is all of it once the copy of that
    direction has read end-of-stream.  In part_001, absent a fault, that is
    so whenever the receiving side observes end-of-stream; in main.go the
    direction that finishes first cancels the pair, and what the other
    direction has not relayed yet is dropped. *)
Theorem splice_delivers_prefix :
  (forall (p : Part001.state) k c,
      Part001.reachable p -> conns_of p !! k = Some c ->
      delivers_all (Part001.sp c))
  /\ (forall (p : Part001.state) k c d,
      Part001.reachable p -> conns_of p !! k = Some c ->
      delivered (get_stream d (Part001.sp c))
        `prefix_of` sent (get_stream d (Part001.sp c))
      /\ (get_task d (Part001.sp c) = Finished EndEOF ->
          eof (get_stream d (Part001.sp c)) = true
          /\ delivered (get_stream d (Part001.sp c))
             = sent (get_stream d (Part001.sp c))))
  /\ (forall (p : MainGo.state) k c d,
      MainGo.reachable p -> conns_of p !! k = Some c ->
      delivered (get_stream d (MainGo.sp c))
        `prefix_of` sent (get_stream d (MainGo.sp c))
      /\ (get_task d (MainGo.sp c) = Finished EndEOF ->
          eof (get_stream d (MainGo.sp c)) = true
          /\ delivered (get_stream d (MainGo.sp c))
             = sent (get_stream d (MainGo.sp c)))).
Proof.
  split; [exact Part001_delivers_all |]. split.
  - intros p k c d Hreach Hk. apply conns_ok_dir.
    apply (pairs_invariant _ _ _ Part001Facts.part001_pair_inv_start
             Part001Facts.part001_pair_inv_step p Hreach k c Hk).
  - intros p k c d Hreach Hk. apply conns_ok_dir.
    apply (pairs_invariant _ _ _ MainGoFacts.maingo_pair_inv_start
             MainGoFacts.maingo_pair_inv_step p Hreach k c Hk).
Qed.

Lemma splice_delivers_prefix_witness :
  Part001.reachable three_relayed
  /\ conns_of three_relayed !! 0 = Some three_relayed_pair
  /\ dialed (Part001.sp three_relayed_pair) = true
  /\ dst_closed Fwd (Part001.sp three_relayed_pair) = true
  /\ fault_free (Part001.sp three_relayed_pair)
  /\ delivered (get_stream Fwd (Part001.sp three_relayed_pair))
     = sent (get_stream Fwd (Part001.sp three_relayed_pair)).
Proof.
  assert (Hreach : Part001.reachable three_relayed)
    by (exists relay_three_bytes; reflexivity).
  assert (Hff : fault_free (Part001.sp three_relayed_pair))
    by (intros [|] e; discriminate).
  split; [exact Hreach |]. split; [reflexivity |]. split; [reflexivity |].
  split; [reflexivity |]. split; [exact Hff |].
  exact (proj1 splice_delivers_prefix three_relayed 0 three_relayed_pair
           Hreach eq_refl Fwd eq_refl eq_refl Hff).
Defined.

(** ** The top-level [run] *)

Lemma Part001_exited_is_final src dst ev status sys log :
  Part001.run_step src dst ev (Part001.TExited status sys log) = None.
Proof. destruct ev; reflexivity. Qed.

Lemma MainGo_exited_is_final src dst ev status sys log :
  MainGo.run_step src dst ev (MainGo.TExited status sys log) = None.
Proof. destruct ev; reflexivity. Qed.

(** C8: a failure to bind the source listener is fatal at startup.  When
    [net.Listen] fails, [run] logs the error and exits with status 1, and
    this is the end of every run: no step of the proxy, so no [Accept],
    happens before the listener exists or after the exit.  The same holds
    in both variants. *)
Theorem listen_failure_is_fatal (src dst : string) (e : error) :
  (forall evs,
      Part001.run_exec src dst (Part001.TListen (Some e) :: evs) Part001.TStart
      = match evs with
        | [] => Some (Part001.TExited 1
                        [SysListen (network_of src) src; SysExit 1]
                        [listen_failed_log e])
        | _ :: _ => None
        end)
  /\ (forall pev, Part001.run_step src dst (Part001.TProxy pev) Part001.TStart = None)
  /\ (forall evs,
      MainGo.run_exec src dst (MainGo.TListen (Some e) :: evs) MainGo.TStart
      = match evs with
        | [] => Some (MainGo.TExited 1
                        [SysListen (network_of src) src; SysExit 1]
                        [listen_failed_log e])
        | _ :: _ => None
        end)
  /\ (forall pev, MainGo.run_step src dst (MainGo.TProxy pev) MainGo.TStart = None)
  /\ fatal_status <> 0%Z.
Proof.
  split; [| split; [| split; [| split]]].
  - intros [| ev evs]; [reflexivity |].
    cbn -[Part001.run_step].
    change (Part001.run_step src dst (Part001.TListen (Some e)) Part001.TStart)
      with (Some (Part001.TExited 1 [SysListen (network_of src) src; SysExit 1]
                    [listen_failed_log e])).
    cbn -[Part001.run_step]. rewrite Part001_exited_is_final. reflexivity.
  - reflexivity.
  - intros [| ev evs]; [reflexivity |].
    cbn -[MainGo.run_step].
    change (MainGo.run_step src dst (MainGo.TListen (Some e)) MainGo.TStart)
      with (Some (MainGo.TExited 1 [SysListen (network_of src) src; SysExit 1]
                    [listen_failed_log e])).
    cbn -[MainGo.run_step]. rewrite MainGo_exited_is_final. reflexivity.
  - reflexivity.
  - discriminate.
Qed.

Lemma Part001_syscalls_step src dst ev t t' :
  Part001_syscalls_ok src t -> Part001.run_step src dst ev t = Some t' ->
  Part001_syscalls_ok src t'.
Proof.
  intros Hok Hstep.
  destruct ev as [[e |] | pev | rm]; destruct t as [| st sys log | sys p | r sys log];
    cbn in Hstep; try discriminate.
  - injection Hstep as <-. reflexivity.
  - injection Hstep as <-. reflexivity.
  - destruct (Part001.step pev p); [| discriminate].
    injection Hstep as <-. exact Hok.
  - destruct (pc p); try discriminate.
    cbn in Hok. subst sys.
    destruct (isUnixSocket src) eqn:Hu; injection Hstep as <-;
      cbn; rewrite Hu; reflexivity.
Qed.

Lemma Part001_syscalls_exec src dst evs t t' :
  Part001_syscalls_ok src t -> Part001.run_exec src dst evs t = Some t' ->
  Part001_syscalls_ok src t'.
Proof.
  revert t. induction evs as [| ev evs IH]; intros t Hok Hexec; cbn in Hexec.
  - congruence.
  - destruct (Part001.run_step src dst ev t) as [t1 |] eqn:Hstep; [| discriminate].
    eapply IH; [eapply Part001_syscalls_step; eassumption | exact Hexec].
Qed.

(** C10: best-effort removal of the socket file, in part_001.  When
    [p.run()] has returned, the deferred calls of [run] close the listener
    and then, exactly when the source address is a local-socket path, call
    [os.Remove] on it, logging an error if the removal fails; [os.Remove] is
    called at no other point of a run, and never for a network source
    address.  (main.go's [run] has no such deferred call.) *)
Theorem socket_file_removed_on_exit (src dst : string) :
  (forall sys (p : Part001.state) r rm,
      pc p = MReturned r ->
      Part001.run_step src dst (Part001.TDefers rm) (Part001.TServing sys p)
      = Some (Part001.TReturned r
                (sys ++ SysCloseListener
                     :: (if isUnixSocket src then [SysRemove src] else []))
                (out p ++
                 if isUnixSocket src then
                   match rm with
                   | Some _ => [logError "could not remove socket %s" (ArgStr src)]
                   | None => []
                   end
                 else [])))
  /\ (forall evs t path,
      Part001.run_exec src dst evs Part001.TStart = Some t ->
      In (SysRemove path) (Part001.syscalls t) ->
      isUnixSocket src = true /\ path = src
      /\ exists r log,
          t = Part001.TReturned r
                [SysListen (network_of src) src; SysCloseListener; SysRemove src]
                log).
Proof.
  split.
  - intros sys p r rm Hpc. cbn. rewrite Hpc.
    destruct (isUnixSocket src); [reflexivity |].
    rewrite app_nil_r. reflexivity.
  - intros evs t path Hexec Hin.
    pose proof (Part001_syscalls_exec src dst evs Part001.TStart t I Hexec) as Hok.
    destruct t as [| st sys log | sys p | r sys log]; cbn in Hin, Hok; subst.
    + contradiction.
    + destruct Hin as [H | [H | []]]; discriminate.
    + destruct Hin as [H | []]; discriminate.
    + destruct (isUnixSocket src); cbn in Hin.
      * destruct Hin as [H | [H | [H | []]]]; try discriminate.
        injection H as <-. split; [reflexivity |]. split; [reflexivity |].
        exists r, log. reflexivity.
      * destruct Hin as [H | [H | []]]; discriminate.
Qed.

Lemma socket_file_removed_on_exit_witness :
  Part001.run_exec "/run/relay.sock" "127.0.0.1:5432" serve_and_leave Part001.TStart
  = Some (Part001.TReturned None
            [SysListen "unix" "/run/relay.sock"; SysCloseListener;
             SysRemove "/run/relay.sock"]
            [logError "could not remove socket %s" (ArgStr "/run/relay.sock")])
  /\ In (SysRemove "/run/relay.sock")
        [SysListen "unix" "/run/relay.sock"; SysCloseListener;
         SysRemove "/run/relay.sock"]
  /\ isUnixSocket "/run/relay.sock" = true.
Proof.
  assert (Hexec :
    Part001.run_exec "/run/relay.sock" "127.0.0.1:5432" serve_and_leave Part001.TStart
    = Some (Part001.TReturned None
              [SysListen "unix" "/run/relay.sock"; SysCloseListener;
               SysRemove "/run/relay.sock"]
              [logError "could not remove socket %s" (ArgStr "/run/relay.sock")]))
    by reflexivity.
  assert (Hin : In (SysRemove "/run/relay.sock")
                   [SysListen "unix" "/run/relay.sock"; SysCloseListener;
                    SysRemove "/run/relay.sock"])
    by (right; right; left; reflexivity).
  split; [exact Hexec |]. split; [exact Hin |].
  exact (proj1 (proj2 (socket_file_removed_on_exit "/run/relay.sock" "127.0.0.1:5432")
                  serve_and_leave _ "/run/relay.sock" Hexec Hin)).
Defined.

(* ===================================================================== *)
(** * Part IV: further properties of the program *)
(* ===================================================================== *)

(** ** The wait groups *)

Section DoneNeverPanics.
Context {pair pair_event : Type}.
Variable start : pair.
Variable pair_step : pair_event -> pair -> option (pair * list logline * bool).
Variable returned : pair -> bool.
Hypothesis returned_start : returned start = false.
Hypothesis returned_step :
  forall e c c' l d, pair_step e c = Some (c', l, d) ->
    returned c' = returned c || d /\ (d = true -> returned c = false).

(** A step of a pair is a step of the proxy: the [p.wg.Done()] of a
    returning [handleConn] finds a positive counter. *)
Lemma conn_step_enabled (p : proxy pair) k e c c' l d :
  Proxy.reachable start pair_step p -> conns_of p !! k = Some c ->
  pair_step e c = Some (c', l, d) ->
  Proxy.step start pair_step (EvConn k e) p <> None.
Proof.
  intros Hreach Hk Hps. cbn. rewrite Hk, Hps.
  destruct d; [| discriminate].
  pose proof (wg_counts _ _ _ returned_start returned_step p Hreach) as Hwg.
  destruct (returned_step _ _ _ _ _ Hps) as [_ Hr].
  pose proof (live_pos returned _ _ _ Hk (Hr eq_refl)) as Hlive.
  destruct (wg p); [lia | discriminate].
Qed.

(** Inside the accept loop [Accept] may return either way: the
    [p.wg.Done()] deferred by [p.accept()] finds a positive counter. *)
Lemma accept_step_enabled (p : proxy pair) a :
  Proxy.reachable start pair_step p -> pc p = MAccept ->
  Proxy.step start pair_step (EvAccept a) p <> None.
Proof.
  intros Hreach Hpc. cbn. rewrite Hpc.
  destruct a; [| discriminate].
  pose proof (wg_counts _ _ _ returned_start returned_step p Hreach) as Hwg.
  rewrite Hpc in Hwg. cbn in Hwg.
  destruct (wg p); [lia | discriminate].
Qed.

End DoneNeverPanics.

(** X1: no call of [p.wg.Done()] panics.  In every reachable state of
    either variant the counter of [p.wg] is positive whenever a goroutine is
    about to call [Done]: [Accept] may fail at any turn of the accept loop,
    and every step a pair can take, a returning [handleConn] included, is a
    step of the proxy. *)
Theorem proxy_wait_group_never_negative :
  (forall p : Part001.state,
      Part001.reachable p ->
      (forall a, pc p = MAccept -> Part001.step (EvAccept a) p <> None)
      /\ (forall k e c c' l d,
             conns_of p !! k = Some c ->
             Part001.pair_step e c = Some (c', l, d) ->
             Part001.step (EvConn k e) p <> None))
  /\ (forall p : MainGo.state,
      MainGo.reachable p ->
      (forall a, pc p = MAccept -> MainGo.step (EvAccept a) p <> None)
      /\ (forall k e c c' l d,
             conns_of p !! k = Some c ->
             MainGo.pair_step e c = Some (c', l, d) ->
             MainGo.step (EvConn k e) p <> None)).
Proof.
  split; intros p Hreach; split.
  - intros a Hpc.
    exact (accept_step_enabled _ _ _ Part001Facts.part001_returned_start
             Part001Facts.part001_returned_step p a Hreach Hpc).
  - intros k e c c' l d Hk Hps.
    exact (conn_step_enabled _ _ _ Part001Facts.part001_returned_start
             Part001Facts.part001_returned_step p k e c c' l d Hreach Hk Hps).
  - intros a Hpc.
    exact (accept_step_enabled _ _ _ MainGoFacts.maingo_returned_start
             MainGoFacts.maingo_returned_step p a Hreach Hpc).
  - intros k e c c' l d Hk Hps.
    exact (conn_step_enabled _ _ _ MainGoFacts.maingo_returned_start
             MainGoFacts.maingo_returned_step p k e c c' l d Hreach Hk Hps).
Qed.

Lemma proxy_wait_group_never_negative_witness :
  Part001.reachable half_finished
  /\ pc half_finished = MAccept
  /\ Part001.step (EvAccept (Some ErrClosed)) half_finished <> None.
Proof.
  assert (Hreach : Part001.reachable half_finished)
    by (exists copy_back_ends_first; reflexivity).
  split; [exact Hreach |]. split; [reflexivity |].
  exact (proj1 (proj1 proxy_wait_group_never_negative half_finished Hreach)
           (Some ErrClosed) eq_refl).
Defined.

(** X2: the local wait group of [handleConn].  While [handleConn] is in
    [wg.Wait()] the counter is the number of copy goroutines still running,
    plus two in main.go, where it was also incremented for the two
    goroutines that close the connections; a copy goroutine that finishes
    always finds a positive counter for its [wg.Done()]. *)
Theorem local_wait_group_counts :
  (forall (p : Part001.state) k c,
      Part001.reachable p -> conns_of p !! k = Some c ->
      (Part001.hc c = Part001.HWait ->
       Part001.lwg c
       = copying (copy_fwd (Part001.sp c)) + copying (copy_back (Part001.sp c)))
      /\ (forall d e r,
             copy_step d e (Part001.sp c) = Some r ->
             Part001.pair_step (Part001.Copy d e) c <> None))
  /\ (forall (p : MainGo.state) k c,
      MainGo.reachable p -> conns_of p !! k = Some c ->
      (MainGo.hc c = MainGo.HWait ->
       MainGo.lwg c
       = 2 + copying (copy_fwd (MainGo.sp c)) + copying (copy_back (MainGo.sp c)))
      /\ (forall d e r,
             copy_step d e (MainGo.sp c) = Some r ->
             MainGo.pair_step (MainGo.Copy d e) c <> None)).
Proof.
  split.
  - intros p k c Hreach Hk.
    pose proof (pairs_invariant _ _ _ Part001Facts.part001_pair_inv_start
                  Part001Facts.part001_pair_inv_step p Hreach k c Hk) as [_ Hpc].
    split.
    + intros Hhc. rewrite Hhc in Hpc. apply Hpc.
    + intros d e [[c0 l0] fin] Hcs.
      destruct (copy_step_inv _ _ _ _ _ _ Hcs) as (Ht & _).
      destruct (Part001_open_while_copying p k c d Hreach Hk Ht) as (Hhc & _).
      rewrite Hhc in Hpc. destruct Hpc as (Hw & _).
      cbn. rewrite Hcs. destruct fin; [| discriminate].
      destruct (Part001.lwg c); [| discriminate].
      destruct d; cbn in Ht; rewrite Ht in Hw; cbn in Hw; lia.
  - intros p k c Hreach Hk.
    pose proof (pairs_invariant _ _ _ MainGoFacts.maingo_pair_inv_start
                  MainGoFacts.maingo_pair_inv_step p Hreach k c Hk)
      as (_ & _ & _ & Hpc & Hnd).
    split.
    + intros Hhc. rewrite Hhc in Hpc. apply Hpc.
    + intros d e [[c0 l0] fin] Hcs.
      destruct (copy_step_inv _ _ _ _ _ _ Hcs) as (Ht & _).
      cbn. rewrite Hcs. destruct fin; [| discriminate].
      destruct (MainGo.lwg c) eqn:Hl; [| discriminate].
      destruct (dialed (MainGo.sp c)) eqn:Hd.
      * destruct (MainGo.hc c); destruct Hpc as (Hw & Hx); try congruence. lia.
      * destruct (Hnd eq_refl) as [Hf Hb]. destruct d; cbn in Ht; congruence.
Qed.

Lemma local_wait_group_counts_witness :
  MainGo.reachable main_cancelled
  /\ conns_of main_cancelled !! 0 = Some main_cancelled_pair
  /\ MainGo.hc main_cancelled_pair = MainGo.HWait
  /\ MainGo.lwg main_cancelled_pair = 3.
Proof.
  assert (Hreach : MainGo.reachable main_cancelled)
    by (exists main_copy_back_ends; reflexivity).
  split; [exact Hreach |]. split; [reflexivity |]. split; [reflexivity |].
  exact (proj1 (proj2 local_wait_group_counts main_cancelled 0 main_cancelled_pair
                  Hreach eq_refl) eq_refl).
Defined.

(** ** What is left when a pair is done *)

(** X3: main.go's [handleConn] never returns from a spliced pair, so
    [p.run()] never returns once a dial has succeeded: [wg.Wait()] cannot
    return, its counter staying at two or more.  When [p.run()] has
    returned, every accepted connection is one whose dial failed: its
    context is cancelled, and its inbound connection is closed or the
    goroutine that closes it is about to. *)
Theorem main_go_spliced_pair_never_returns :
  (forall (p : MainGo.state) k c,
      MainGo.reachable p -> conns_of p !! k = Some c ->
      dialed (MainGo.sp c) = true ->
      MainGo.hc c = MainGo.HWait
      /\ MainGo.step (EvConn k MainGo.Wait) p = None
      /\ forall r, pc p <> MReturned r)
  /\ (forall (p : MainGo.state) r k c,
      MainGo.reachable p -> pc p = MReturned r -> conns_of p !! k = Some c ->
      dialed (MainGo.sp c) = false
      /\ MainGo.hc c = MainGo.HReturned /\ MainGo.ctx_done c = true
      /\ (in_closed (MainGo.sp c) = true \/ MainGo.closer_in c = MainGo.CWaiting)).
Proof.
  assert (Hret : forall (p : MainGo.state) r k c,
             MainGo.reachable p -> pc p = MReturned r ->
             conns_of p !! k = Some c -> MainGo.hc c = MainGo.HReturned).
  { intros p r k c Hreach Hpc Hk.
    pose proof (returned_after_all _ _ _ MainGoFacts.maingo_returned_start
                  MainGoFacts.maingo_returned_step p Hreach r Hpc k c Hk) as H.
    unfold MainGo.returned in H. destruct (MainGo.hc c); congruence. }
  split.
  - intros p k c Hreach Hk Hd.
    destruct (MainGo_handleConn_stays_in_wait p k c Hreach Hk Hd)
      as (Hhc & _ & Hwait).
    split; [exact Hhc |]. split.
    + cbn. rewrite Hk. cbn in Hwait |- *. rewrite Hwait. reflexivity.
    + intros r Hpc. pose proof (Hret p r k c Hreach Hpc Hk). congruence.
  - intros p r k c Hreach Hpc Hk.
    pose proof (Hret p r k c Hreach Hpc Hk) as Hhc.
    pose proof (pairs_invariant _ _ _ MainGoFacts.maingo_pair_inv_start
                  MainGoFacts.maingo_pair_inv_step p Hreach k c Hk)
      as (_ & Hin & _ & Hx & _).
    rewrite Hhc in Hx, Hin. destruct Hx as [Hd Hctx].
    split; [exact Hd |]. split; [exact Hhc |]. split; [exact Hctx |].
    destruct (MainGo.closer_in c).
    + destruct Hin; discriminate.
    + right. reflexivity.
    + left. apply Hin.
Qed.

Lemma main_go_spliced_pair_never_returns_witness :
  MainGo.reachable main_truncated
  /\ conns_of main_truncated !! 0 = Some main_truncated_pair
  /\ dialed (MainGo.sp main_truncated_pair) = true
  /\ MainGo.step (EvConn 0 MainGo.Wait) main_truncated = None.
Proof.
  assert (Hreach : MainGo.reachable main_truncated)
    by (exists main_back_ends_first; reflexivity).
  split; [exact Hreach |]. split; [reflexivity |]. split; [reflexivity |].
  exact (proj1 (proj2 (proj1 main_go_spliced_pair_never_returns main_truncated 0
                         main_truncated_pair Hreach eq_refl eq_refl))).
Defined.

(** X4: part_001 leaves no connection open.  A [handleConn] that has
    returned has closed the inbound connection, and the outbound one if the
    dial had succeeded; so when [p.run()] has returned, every connection
    that was accepted or dialed is closed. *)
Theorem part001_no_connection_left_open :
  forall (p : Part001.state) k c,
    Part001.reachable p -> conns_of p !! k = Some c ->
    (Part001.hc c = Part001.HReturned ->
     in_closed (Part001.sp c) = true
     /\ out_closed (Part001.sp c) = dialed (Part001.sp c))
    /\ (forall r, pc p = MReturned r ->
        in_closed (Part001.sp c) = true
        /\ out_closed (Part001.sp c) = dialed (Part001.sp c)).
Proof.
  intros p k c Hreach Hk.
  pose proof (pairs_invariant _ _ _ Part001Facts.part001_pair_inv_start
                Part001Facts.part001_pair_inv_step p Hreach k c Hk) as [_ Hpc].
  assert (H : Part001.hc c = Part001.HReturned ->
              in_closed (Part001.sp c) = true
              /\ out_closed (Part001.sp c) = dialed (Part001.sp c)).
  { intros Hhc. rewrite Hhc in Hpc. destruct Hpc as (Hi & Ho & _). auto. }
  split; [exact H |].
  intros r Hr. apply H.
  pose proof (returned_after_all _ _ _ Part001Facts.part001_returned_start
                Part001Facts.part001_returned_step p Hreach r Hr k c Hk) as Hret.
  unfold Part001.returned in Hret. destruct (Part001.hc c); congruence.
Qed.

Lemma part001_no_connection_left_open_witness :
  Part001.reachable three_relayed
  /\ conns_of three_relayed !! 0 = Some three_relayed_pair
  /\ Part001.hc three_relayed_pair = Part001.HReturned
  /\ in_closed (Part001.sp three_relayed_pair) = true
  /\ out_closed (Part001.sp three_relayed_pair)
     = dialed (Part001.sp three_relayed_pair).
Proof.
  assert (Hreach : Part001.reachable three_relayed)
    by (exists relay_three_bytes; reflexivity).
  split; [exact Hreach |]. split; [reflexivity |]. split; [reflexivity |].
  exact (proj1 (part001_no_connection_left_open three_relayed 0 three_relayed_pair
                  Hreach eq_refl) eq_refl).
Defined.

(** X5: part_001 never reads from or writes to a connection it has closed.
    No [io.Copy] of a pair ends on the error of a closed connection, since
    the connections are closed only after both copy goroutines are over. *)
Theorem part001_never_uses_closed_connection :
  forall (p : Part001.state) k c d,
    Part001.reachable p -> conns_of p !! k = Some c ->
    get_task d (Part001.sp c) <> Finished EndClosed
    /\ Part001.step (EvConn k (Part001.Copy d UseOfClosed)) p = None.
Proof.
  intros p k c d Hreach Hk.
  pose proof (pairs_invariant _ _ _ Part001Facts.part001_pair_inv_start
                Part001Facts.part001_pair_inv_step p Hreach k c Hk) as [_ Hpc].
  split.
  - destruct (Part001.hc c).
    + destruct Hpc as (_ & _ & _ & _ & Hf & Hb). destruct d; cbn; congruence.
    + destruct Hpc as (_ & _ & _ & _ & [_ Hf] & [_ Hb]). destruct d; assumption.
    + destruct Hpc as (_ & _ & Hfin & Hnot).
      destruct (dialed (Part001.sp c)).
      * destruct (Hfin eq_refl) as (_ & _ & [_ Hf] & [_ Hb]).
        destruct d; assumption.
      * destruct (Hnot eq_refl) as [Hf Hb]. destruct d; cbn; congruence.
  - cbn. rewrite Hk. cbn. unfold copy_step.
    destruct (get_task d (Part001.sp c)) eqn:Ht; try reflexivity.
    destruct (Part001_open_while_copying p k c d Hreach Hk Ht) as (_ & Hi & Ho).
    destruct d; cbn; rewrite Hi, Ho; reflexivity.
Qed.

Lemma part001_never_uses_closed_connection_witness :
  Part001.reachable half_finished
  /\ Part001.step (EvConn 0 (Part001.Copy Fwd UseOfClosed)) half_finished = None.
Proof.
  assert (Hreach : Part001.reachable half_finished)
    by (exists copy_back_ends_first; reflexivity).
  split; [exact Hreach |].
  exact (proj2 (part001_never_uses_closed_connection half_finished 0
                  (Part001.Pair Part001.HWait 1
                     (Conns false true false empty_stream (Stream [] true [])
                            Copying (Finished EndEOF)))
                  Fwd Hreach eq_refl)).
Defined.

(** ** Leaving the accept loop *)

Section AcceptFailure.
Context {pair pair_event : Type}.
Variable start : pair.
Variable pair_step : pair_event -> pair -> option (pair * list logline * bool).

Lemma accept_failure_recorded (p : proxy pair) :
  Proxy.reachable start pair_step p ->
  err p = None
  /\ match pc p with
     | MRun | MAccept => herr p = HENone
     | MWait | MReturned _ =>
         exists e, herr p = HEPending (accept_error e)
                   \/ (herr p = HEDone /\ In (ignored_log e) (out p))
     end.
Proof.
  revert p.
  apply (reachable_invariant start pair_step
           (fun p => err p = None
                     /\ match pc p with
                        | MRun | MAccept => herr p = HENone
                        | MWait | MReturned _ =>
                            exists e, herr p = HEPending (accept_error e)
                                      \/ (herr p = HEDone
                                          /\ In (ignored_log e) (out p))
                        end)).
  - split; reflexivity.
  - intros q ev q' [Herr Hpc] Hstep.
    destruct ev as [| [e |] | | | k e].
    + cbn in Hstep. destruct (pc q); inversion Hstep; subst; cbn. auto.
    + cbn in Hstep. destruct (pc q); try discriminate.
      destruct (wg_Done (wg q)); inversion Hstep; subst; cbn.
      split; [exact Herr |]. exists e. left. reflexivity.
    + cbn in Hstep. destruct (pc q); inversion Hstep; subst; cbn. auto.
    + cbn in Hstep. destruct (herr q) as [| e0 |] eqn:Hh; try discriminate.
      rewrite Herr in Hstep. cbn in Hstep. inversion Hstep; subst; cbn.
      split; [reflexivity |].
      destruct (pc q); try discriminate Hpc;
        destruct Hpc as [e [He | [He _]]]; try discriminate;
        injection He as ->; exists e; right;
        (split; [reflexivity | apply in_or_app; right; left; reflexivity]).
    + cbn in Hstep. destruct (pc q); try discriminate.
      destruct (wg q); inversion Hstep; subst; cbn. auto.
    + apply step_conn_inv in Hstep
        as (c & c' & l & d & _ & _ & Hpc' & He & Hh & _ & Hout & _).
      rewrite Hpc', He, Hh, Hout. split; [exact Herr |].
      destruct (pc q); try exact Hpc;
        destruct Hpc as [e1 [H | [H Hin]]]; exists e1; auto;
        right; (split; [exact H | apply in_or_app; left; exact Hin]).
Qed.

End AcceptFailure.

(** X6: [p.run()] leaves the accept loop only when [Accept] has failed, and
    the failure is not lost without a trace: the error that wraps it is
    handed to [handleError], which logs it as ignored.  In both variants,
    whenever [p.run()] is in [p.wg.Wait()] or has returned, that error is
    either still with the goroutine that calls [handleError] or in the log. *)
Theorem run_ends_only_on_accept_failure :
  (forall p : Part001.state,
      Part001.reachable p ->
      pc p = MWait \/ (exists r, pc p = MReturned r) ->
      exists e, herr p = HEPending (accept_error e)
                \/ (herr p = HEDone /\ In (ignored_log e) (out p)))
  /\ (forall p : MainGo.state,
      MainGo.reachable p ->
      pc p = MWait \/ (exists r, pc p = MReturned r) ->
      exists e, herr p = HEPending (accept_error e)
                \/ (herr p = HEDone /\ In (ignored_log e) (out p))).
Proof.
  split; intros p Hreach Hpc;
    destruct (accept_failure_recorded _ _ p Hreach) as [_ H];
    destruct Hpc as [Hpc | [r Hpc]]; rewrite Hpc in H; exact H.
Qed.

Lemma run_ends_only_on_accept_failure_witness :
  Part001.reachable run_has_returned
  /\ (pc run_has_returned = MWait \/ exists r, pc run_has_returned = MReturned r)
  /\ exists e, herr run_has_returned = HEPending (accept_error e)
               \/ (herr run_has_returned = HEDone
                   /\ In (ignored_log e) (out run_has_returned)).
Proof.
  assert (Hreach : Part001.reachable run_has_returned)
    by (exists dial_fails_then_accept_fails; reflexivity).
  assert (Hpc : pc run_has_returned = MWait
                \/ exists r, pc run_has_returned = MReturned r)
    by (right; exists None; reflexivity).
  split; [exact Hreach |]. split; [exact Hpc |].
  exact (proj1 run_ends_only_on_accept_failure run_has_returned Hreach Hpc).
Defined.

(** ** What main.go delivers when nothing disturbs a direction *)

Lemma dir_eq_dec (a b : dir) : {a = b} + {a <> b}.
Proof. decide equality. Defined.

(** How a copy goroutine ends is fixed by what its last read or write
    returned. *)
Lemma copy_step_ending (d : dir) (e : copy_event) (c c' : conns) l :
  copy_step d e c = Some (c', l, true) ->
  get_task d c'
  = Finished match e with
             | ReadEOF => EndEOF
             | Fault x => EndFault x
             | _ => EndClosed
             end
  /\ forall n, e <> Chunk n.
Proof.
  unfold copy_step. destruct (get_task d c); try discriminate.
  destruct (io_Copy_step e (src_closed d c) (dst_closed d c) (get_stream d c))
    as [[s [h |]] |] eqn:Hio; try discriminate.
  intros [= <- _].
  destruct e as [n | | x |]; cbn in Hio;
    repeat match type of Hio with
           | context [if ?b then _ else _] => destruct b
           end;
    try discriminate; injection Hio as <- <-;
    (split; [destruct d; reflexivity | discriminate]).
Qed.

Lemma undisturbed_inv_start (d : dir) : undisturbed_inv d MainGo.handleConn_start.
Proof.
  split; [exact MainGoFacts.maingo_pair_inv_start |].
  destruct d; cbn; repeat split; auto; try discriminate;
    intros [|] e; discriminate.
Qed.

Lemma undisturbed_pair_step (d : dir) k e c c' l dd :
  undisturbed_inv d c -> MainGo.pair_step e c = Some (c', l, dd) ->
  undisturbed d (EvConn k e) = true -> undisturbed_inv d c'.
Proof.
  intros (Hinv & Heof & Hnf & Hearly & Hdone) Hps Hcalm.
  pose proof (MainGoFacts.maingo_pair_inv_step _ _ _ _ _ Hinv Hps) as Hinv'.
  split; [exact Hinv' |].
  destruct Hinv as (Hok & Hin & Hout & Hpc & Hnd).
  destruct e as [| [e |] | e | dr e | | | |]; cbn in Hps.
  - destruct (MainGo.hc c) eqn:Hhc; try discriminate.
    injection Hps as <- <- <-. cbn.
    destruct Hpc as [_ Hd].
    repeat split; auto; intros; congruence.
  - destruct (MainGo.hc c) eqn:Hhc; try discriminate.
    injection Hps as <- <- <-. cbn.
    destruct Hpc as [_ Hd].
    repeat split; auto; try (intros [? | ?]; discriminate); intros; congruence.
  - destruct (MainGo.hc c) eqn:Hhc; try discriminate.
    injection Hps as <- <- <-. cbn.
    assert (Hctx : MainGo.ctx_done c = false) by auto.
    split; [destruct d; exact Heof |].
    split; [intros [|] e; discriminate |].
    split; [intros [? | ?]; discriminate |].
    intros _ H. congruence.
  - unfold peer_step in Hps.
    destruct (eof (get_stream (peer_dir e) (MainGo.sp c))) eqn:He;
      [discriminate |].
    destruct e as [d0 bs | d0]; destruct d, d0; cbn in Hcalm, Hps, He;
      try discriminate Hcalm;
      try (destruct (dialed (MainGo.sp c)) eqn:Hd; [| discriminate]);
      injection Hps as <- <- <-; cbn in *;
      (split; [assumption || reflexivity |]);
      (split; [exact Hnf |]);
      (split; [exact Hearly |]);
      try exact Hdone; try (intros _; exact (Hdone eq_refl)).
  - destruct (copy_step dr e (MainGo.sp c)) as [[[c0 l0] fin] |] eqn:Hcs;
      try discriminate.
    destruct (copy_step_inv _ _ _ _ _ _ Hcs)
      as (Ht & Hi & Hd & Ho & Hother & _ & Heof' & Hfin).
    assert (Hdl : dialed (MainGo.sp c) = true).
    { destruct (dialed (MainGo.sp c)); [reflexivity |].
      destruct (Hnd eq_refl) as [Hf Hb]. destruct dr; cbn in Ht; congruence. }
    assert (Hhc : MainGo.hc c = MainGo.HWait).
    { destruct (MainGo.hc c); try reflexivity; destruct Hpc; congruence. }
    assert (Heof0 : eof (get_stream (opposite d) c0) = false).
    { destruct (dir_eq_dec (opposite d) (dr)) as [<- | Hne].
      - rewrite Heof'. exact Heof.
      - destruct (Hother (opposite d) Hne) as [_ ->]. exact Heof. }
    destruct fin.
    + destruct Hfin as (h & Ht' & _ & _ & Hh).
      destruct (MainGo.lwg c) as [| n]; cbn in Hps; [discriminate |].
      injection Hps as <- <- <-. cbn.
      split; [exact Heof0 |].
      assert (Hnofault : forall e0, h <> EndFault e0).
      { destruct (copy_step_ending _ _ _ _ _ Hcs) as [Hx _].
        rewrite Ht' in Hx. injection Hx as ->.
        destruct e; cbn in Hcalm; try discriminate Hcalm; intros; discriminate. }
      assert (Hopen : MainGo.ctx_done c = false ->
                      src_closed dr (MainGo.sp c) || dst_closed dr (MainGo.sp c)
                      = false).
      { intros Hctx.
        assert (in_closed (MainGo.sp c) = false).
        { destruct (MainGo.closer_in c); destruct Hin as (? & ? & ?) || destruct Hin;
            congruence. }
        assert (out_closed (MainGo.sp c) = false).
        { destruct (MainGo.closer_out c);
            destruct Hout as (? & ? & ?) || destruct Hout; congruence. }
        destruct dr; cbn; rewrite H, H0; reflexivity. }
      assert (Hcase : (MainGo.ctx_done c = true /\ dr <> d)
                      \/ (MainGo.ctx_done c = false /\ dr = d /\ h = EndEOF)).
      { destruct (MainGo.ctx_done c) eqn:Hctx.
        - left. split; [reflexivity |]. intros ->.
          rewrite (Hdone Hdl eq_refl) in Ht. discriminate.
        - right. split; [reflexivity |].
          destruct h as [| e0 |].
          + destruct Hh as (He & _).
            split; [| reflexivity].
            destruct (dir_eq_dec (dr) (d)) as [-> | Hne]; [reflexivity |].
            assert (dr = opposite d) by (destruct dr, d; cbn; congruence).
            subst dr. congruence.
          + exfalso. exact (Hnofault e0 eq_refl).
          + rewrite (Hopen eq_refl) in Hh. discriminate. }
      split.
      { intros d' e0 Hd'.
        destruct (dir_eq_dec (d') (dr)) as [-> | Hne].
        - rewrite Ht' in Hd'. injection Hd' as ->.
          exact (Hnofault e0 eq_refl).
        - destruct (Hother d' Hne) as [Hx _]. rewrite Hx in Hd'.
          exact (Hnf d' e0 Hd'). }
      split; [rewrite Hhc; intros [? | ?]; discriminate |].
      intros _ _.
      destruct Hcase as [[Hctx Hne] | (_ & -> & ->)].
      * destruct (Hother d) as [Hx _]; [congruence |].
        rewrite Hx. exact (Hdone Hdl Hctx).
      * exact Ht'.
    + destruct Hfin as (Ht' & _).
      injection Hps as <- <- <-. cbn.
      split; [exact Heof0 |].
      split.
      { intros d' e0 Hd'.
        destruct (dir_eq_dec (d') (dr)) as [-> | Hne].
        - rewrite Ht' in Hd'. discriminate.
        - destruct (Hother d' Hne) as [Hx _]. rewrite Hx in Hd'.
          exact (Hnf d' e0 Hd'). }
      split; [exact Hearly |].
      intros _ Hctx.
      pose proof (Hdone Hdl Hctx) as Hd0.
      destruct (dir_eq_dec (d) (dr)) as [-> | Hne]; [congruence |].
      destruct (Hother d Hne) as [Hx _]. rewrite Hx. exact Hd0.
  - destruct (MainGo.closer_in c); try discriminate.
    destruct (MainGo.ctx_done c) eqn:Hctx; try discriminate.
    injection Hps as <- <- <-. cbn.
    repeat split; auto; destruct d; auto.
  - destruct (MainGo.closer_out c); try discriminate.
    destruct (MainGo.ctx_done c) eqn:Hctx; try discriminate.
    injection Hps as <- <- <-. cbn.
    repeat split; auto; destruct d; auto.
  - discriminate Hcalm.
  - destruct (MainGo.hc c) eqn:Hhc; try discriminate.
    destruct (MainGo.lwg c) eqn:Hlwg; try discriminate.
    destruct Hpc as (Hw & _). lia.
Qed.

Lemma undisturbed_exec (d : dir) evs (p p' : MainGo.state) :
  (forall k c, conns_of p !! k = Some c -> undisturbed_inv d c) ->
  forallb (undisturbed d) evs = true ->
  MainGo.exec evs p = Some p' ->
  forall k c, conns_of p' !! k = Some c -> undisturbed_inv d c.
Proof.
  revert p. induction evs as [| ev evs IH]; intros p Hp Hcalm Hexec.
  - cbn in Hexec. injection Hexec as <-. exact Hp.
  - cbn in Hcalm, Hexec. apply andb_prop in Hcalm as [Hev Hevs].
    destruct (MainGo.step ev p) as [p1 |] eqn:Hstep; [| discriminate].
    apply (IH p1); [| exact Hevs | exact Hexec].
    clear IH Hexec Hevs.
    destruct ev as [| [e |] | | | k e].
    + cbn in Hstep. destruct (pc p); inversion Hstep; subst; exact Hp.
    + cbn in Hstep. destruct (pc p); try discriminate.
      destruct (wg_Done (wg p)); inversion Hstep; subst; exact Hp.
    + cbn in Hstep. destruct (pc p); inversion Hstep; subst; cbn.
      intros k c Hk. apply lookup_app_Some in Hk as [Hk | [_ Hk]].
      * eapply Hp; exact Hk.
      * apply list_lookup_singleton_Some in Hk as [_ <-].
        apply undisturbed_inv_start.
    + cbn in Hstep. destruct (herr p); try discriminate.
      destruct (handleError _ _). inversion Hstep; subst; exact Hp.
    + cbn in Hstep. destruct (pc p); try discriminate.
      destruct (wg p); inversion Hstep; subst; exact Hp.
    + apply step_conn_inv in Hstep
        as (c & c' & l & dd & Hk & Hps & _ & _ & _ & Hconns & _).
      rewrite Hconns. intros j cj Hj.
      destruct (decide (k = j)) as [<- | Hne].
      * rewrite list_lookup_insert_eq in Hj
          by (eapply lookup_lt_Some; exact Hk).
        inversion Hj; subst.
        eapply undisturbed_pair_step; [eapply Hp; exact Hk | exact Hps | exact Hev].
      * rewrite list_lookup_insert_ne in Hj by exact Hne.
        eapply Hp; exact Hj.
Qed.

(** X7: what main.go delivers in the run that [TestSimpleTransmission]
    makes.  Along a run in which no read or write fails for an outside
    reason, the parent context is not cancelled and the peer writing the
    opposite direction does not end its stream, the pair is torn down only
    by the copy of direction [d] reading end-of-stream: when the peer
    reading [d] observes end-of-stream, the writer has ended its stream and
    every byte it wrote was delivered. *)
Theorem main_go_undisturbed_direction_delivers_all :
  forall (d : dir) evs (p : MainGo.state) k c,
    forallb (undisturbed d) evs = true ->
    MainGo.exec evs init = Some p ->
    conns_of p !! k = Some c ->
    dialed (MainGo.sp c) = true -> dst_closed d (MainGo.sp c) = true ->
    eof (get_stream d (MainGo.sp c)) = true
    /\ delivered (get_stream d (MainGo.sp c)) = sent (get_stream d (MainGo.sp c)).
Proof.
  intros d evs p k c Hcalm Hexec Hk Hdl Hdst.
  assert (Hinit : forall j cj,
             conns_of (init : MainGo.state) !! j = Some cj -> undisturbed_inv d cj).
  { intros j cj Hj. cbn in Hj. rewrite lookup_nil in Hj. discriminate. }
  destruct (undisturbed_exec d evs init p Hinit Hcalm Hexec k c Hk)
    as ((Hok & Hin & Hout & _) & _ & _ & _ & Hdone).
  assert (Hctx : MainGo.ctx_done c = true).
  { destruct d; cbn in Hdst.
    - destruct (MainGo.closer_out c);
        destruct Hout as (? & ? & ?) || destruct Hout; congruence.
    - destruct (MainGo.closer_in c);
        destruct Hin as (? & ? & ?) || destruct Hin; congruence. }
  apply (conns_ok_dir _ d Hok). exact (Hdone Hdl Hctx).
Qed.

Lemma main_go_undisturbed_direction_delivers_all_witness :
  forallb (undisturbed Fwd) simple_transmission = true
  /\ MainGo.exec simple_transmission init = Some transmitted
  /\ conns_of transmitted !! 0 = Some transmitted_pair
  /\ dialed (MainGo.sp transmitted_pair) = true
  /\ dst_closed Fwd (MainGo.sp transmitted_pair) = true
  /\ sent (get_stream Fwd (MainGo.sp transmitted_pair)) = test_payload
  /\ delivered (get_stream Fwd (MainGo.sp transmitted_pair))
     = sent (get_stream Fwd (MainGo.sp transmitted_pair)).
Proof.
  split; [reflexivity |]. split; [reflexivity |]. split; [reflexivity |].
  split; [reflexivity |]. split; [reflexivity |]. split; [reflexivity |].
  exact (proj2 (main_go_undisturbed_direction_delivers_all Fwd simple_transmission
                  transmitted 0 transmitted_pair eq_refl eq_refl eq_refl
                  eq_refl eq_refl)).
Defined.

(** ** The top-level [run], from start to end *)

Lemma Part001_run_ok_step src dst ev t t' :
  Part001_run_ok src t -> Part001.run_step src dst ev t = Some t' ->
  Part001_run_ok src t'.
Proof.
  intros Hok Hstep.
  destruct ev as [[e |] | pev | rm]; destruct t as [| st sys log | sys p | r sys log];
    cbn in Hstep; try discriminate.
  - injection Hstep as <-. cbn. repeat split. exists e. reflexivity.
  - injection Hstep as <-. cbn. split; [apply reachable_init | reflexivity].
  - destruct (Part001.step pev p) as [p' |] eqn:Hp; [| discriminate].
    injection Hstep as <-. destruct Hok as [Hreach Hsys].
    split; [eapply reachable_step; eassumption | exact Hsys].
  - destruct (pc p) eqn:Hpc; try discriminate.
    destruct Hok as [Hreach ->].
    pose proof (Part001_run_returns_nil p r Hreach Hpc) as ->.
    destruct (isUnixSocket src) eqn:Hu; injection Hstep as <-;
      cbn; rewrite Hu; split; reflexivity.
Qed.

Lemma Part001_run_ok_exec src dst evs t t' :
  Part001_run_ok src t -> Part001.run_exec src dst evs t = Some t' ->
  Part001_run_ok src t'.
Proof.
  revert t. induction evs as [| ev evs IH]; intros t Hok Hexec; cbn in Hexec.
  - congruence.
  - destruct (Part001.run_step src dst ev t) as [t1 |] eqn:Hstep; [| discriminate].
    eapply IH; [eapply Part001_run_ok_step; eassumption | exact Hexec].
Qed.

(** X8: part_001's [run] returns nil whenever it returns, also after the
    [Accept] failure that ended the accept loop; by then it has made exactly
    these system calls, in this order: [net.Listen] on the source address
    with its network, [listener.Close()], and [os.Remove] of the source
    address if that is a local-socket path. *)
Theorem part001_run_returns_nil_after_cleanup :
  forall src dst evs r sys log,
    Part001.run_exec src dst evs Part001.TStart = Some (Part001.TReturned r sys log) ->
    r = None
    /\ sys = [SysListen (network_of src) src; SysCloseListener]
             ++ (if isUnixSocket src then [SysRemove src] else []).
Proof.
  intros src dst evs r sys log Hexec.
  exact (Part001_run_ok_exec src dst evs Part001.TStart _ I Hexec).
Qed.

Lemma part001_run_returns_nil_after_cleanup_witness :
  Part001.run_exec "/run/relay.sock" "127.0.0.1:5432" serve_and_leave Part001.TStart
  = Some (Part001.TReturned None
            [SysListen "unix" "/run/relay.sock"; SysCloseListener;
             SysRemove "/run/relay.sock"]
            [logError "could not remove socket %s" (ArgStr "/run/relay.sock")])
  /\ (None : option error) = None.
Proof.
  assert (Hexec :
    Part001.run_exec "/run/relay.sock" "127.0.0.1:5432" serve_and_leave Part001.TStart
    = Some (Part001.TReturned None
              [SysListen "unix" "/run/relay.sock"; SysCloseListener;
               SysRemove "/run/relay.sock"]
              [logError "could not remove socket %s" (ArgStr "/run/relay.sock")]))
    by reflexivity.
  split; [exact Hexec |].
  exact (proj1 (part001_run_returns_nil_after_cleanup _ _ _ _ _ _ Hexec)).
Defined.

Lemma MainGo_run_ok_step src dst ev t t' :
  MainGo_run_ok src t -> MainGo.run_step src dst ev t = Some t' ->
  MainGo_run_ok src t'.
Proof.
  intros Hok Hstep.
  destruct ev as [[e |] | pev | | | |];
    destruct t as [| st sys log | sys s | r sys log];
    cbn in Hstep; try discriminate.
  - injection Hstep as <-. cbn. repeat split. exists e. reflexivity.
  - injection Hstep as <-. cbn.
    repeat split; try discriminate. apply reachable_init.
  - destruct (MainGo.runner_done s) eqn:Hr; cbn in Hstep; [discriminate |].
    destruct (MainGo.allowed s pev); [| discriminate].
    destruct (MainGo.step pev (MainGo.prx s)) as [p' |] eqn:Hp; [| discriminate].
    injection Hstep as <-.
    destruct Hok as (Hreach & Hterr & Htwg & Hsys & Hlc & Hcd & Hrd).
    rewrite Hr in Htwg.
    cbn. repeat split; auto; try discriminate.
    eapply reachable_step; eassumption.
  - destruct (pc (MainGo.prx s)) eqn:Hpc; try discriminate.
    destruct (MainGo.runner_done s) eqn:Hr; try discriminate.
    destruct (wg_Done (MainGo.twg s)) as [n |] eqn:Hn; try discriminate.
    injection Hstep as <-.
    destruct Hok as (Hreach & Hterr & Htwg & Hsys & Hlc & Hcd & Hrd).
    pose proof (MainGo_run_returns_nil _ r Hreach Hpc) as ->.
    rewrite Hr in Htwg.
    cbn. repeat split; auto.
    + destruct (MainGo.twg s); cbn in Hn; [discriminate |].
      injection Hn as <-. destruct (MainGo.closer_done s); lia.
    + exists None. exact Hpc.
  - destruct Hok as (Hreach & Hterr & Htwg & Hsys & Hlc & Hcd & Hrd).
    destruct (MainGo.run_ctx_done s) eqn:Hc; try discriminate.
    destruct (MainGo.closer_done s) eqn:Hcd'; try discriminate.
    destruct (wg_Done (MainGo.twg s)) as [n |] eqn:Hn; try discriminate.
    injection Hstep as <-.
    cbn. repeat split; auto.
    + destruct (MainGo.twg s); cbn in Hn; [discriminate |].
      injection Hn as <-. destruct (MainGo.runner_done s); cbn in *; lia.
    + rewrite Hsys. reflexivity.
    + apply Hrd; assumption.
  - injection Hstep as <-.
    destruct Hok as (Hreach & Hterr & Htwg & Hsys & Hlc & Hcd & Hrd).
    cbn. repeat split; auto. apply Hrd; assumption.
  - destruct Hok as (Hreach & Hterr & Htwg & Hsys & Hlc & Hcd & Hrd).
    destruct (MainGo.twg s) eqn:Hn; try discriminate.
    injection Hstep as <-.
    cbn. split; [exact Hterr |].
    rewrite Hsys.
    destruct (MainGo.closer_done s); [reflexivity |].
    destruct (MainGo.runner_done s); cbn in Htwg; lia.
Qed.

Lemma MainGo_run_ok_exec src dst evs t t' :
  MainGo_run_ok src t -> MainGo.run_exec src dst evs t = Some t' ->
  MainGo_run_ok src t'.
Proof.
  revert t. induction evs as [| ev evs IH]; intros t Hok Hexec; cbn in Hexec.
  - congruence.
  - destruct (MainGo.run_step src dst ev t) as [t1 |] eqn:Hstep; [| discriminate].
    eapply IH; [eapply MainGo_run_ok_step; eassumption | exact Hexec].
Qed.

(** X9: main.go's [run] returns only after the proxy has returned and the
    listener was closed, and then returns nil.  While it serves, the
    listener is closed only once the context is cancelled, the proxy's
    goroutine is over only once [p.run(ctx)] has returned, and [wg.Wait()]
    lets [run] return exactly when both goroutines are over; a completed
    run made exactly the system calls [net.Listen] and [listener.Close()]. *)
Theorem main_go_run_returns_after_cleanup :
  forall src dst evs t,
    MainGo.run_exec src dst evs MainGo.TStart = Some t ->
    match t with
    | MainGo.TServing sys s =>
        (MainGo.listener_closed s = true -> MainGo.run_ctx_done s = true)
        /\ (MainGo.runner_done s = true ->
            exists r, pc (MainGo.prx s) = MReturned r)
        /\ (MainGo.run_step src dst MainGo.TWait t <> None
            <-> MainGo.closer_done s = true /\ MainGo.runner_done s = true)
    | MainGo.TReturned r sys _ =>
        r = None /\ sys = [SysListen (network_of src) src; SysCloseListener]
    | _ => True
    end.
Proof.
  intros src dst evs t Hexec.
  pose proof (MainGo_run_ok_exec src dst evs MainGo.TStart t I Hexec) as Hok.
  destruct t as [| st sys log | sys s | r sys log]; try exact I; [| exact Hok].
  destruct Hok as (_ & _ & Htwg & _ & Hlc & Hcd & Hrd).
  split; [rewrite Hlc; exact Hcd |].
  split; [intros H; apply Hrd; exact H |].
  cbn. rewrite Htwg.
  destruct (MainGo.closer_done s), (MainGo.runner_done s); cbn;
    split; try (intros [? ?]); try congruence; auto.
Qed.

Lemma main_go_run_returns_after_cleanup_witness :
  MainGo.run_exec "/run/relay.sock" "127.0.0.1:5432" main_go_serve_and_leave
    MainGo.TStart
  = Some (MainGo.TReturned None
            [SysListen "unix" "/run/relay.sock"; SysCloseListener] [])
  /\ (None : option error) = None
  /\ [SysListen "unix" "/run/relay.sock"; SysCloseListener]
     = [SysListen (network_of "/run/relay.sock") "/run/relay.sock";
        SysCloseListener].
Proof.
  assert (Hexec :
    MainGo.run_exec "/run/relay.sock" "127.0.0.1:5432" main_go_serve_and_leave
      MainGo.TStart
    = Some (MainGo.TReturned None
              [SysListen "unix" "/run/relay.sock"; SysCloseListener] []))
    by reflexivity.
  split; [exact Hexec |].
  exact (main_go_run_returns_after_cleanup _ _ _ _ Hexec).
Defined.



(** ** [main] *)

Section MainFacts.
Variables (top top_event : Type).
Variable top_start : top.
Variable run_step : string -> string -> top_event -> top -> option top.
Variable view : top -> Cli.run_view.
Variable run_ok : string -> top -> Prop.
Variable final_sys : string -> list syscall.
Hypothesis ok_start : forall src, run_ok src top_start.
Hypothesis ok_step :
  forall src dst ev t t',
    run_ok src t -> run_step src dst ev t = Some t' -> run_ok src t'.
Hypothesis view_exited :
  forall src t status sys log,
    run_ok src t -> view t = Cli.RunExited status sys log ->
    status = fatal_status
    /\ sys = [SysListen (network_of src) src; SysExit fatal_status]
    /\ exists e, log = [listen_failed_log e].
Hypothesis view_returned :
  forall src t r sys log,
    run_ok src t -> view t = Cli.RunReturned r sys log ->
    r = None /\ sys = final_sys src.

Abbreviation main_step := (Cli.main_step top_start run_step view).
Abbreviation main_exec := (Cli.main_exec top_start run_step view).

Lemma exited_is_final progname args ev status sys out :
  main_step progname args ev (Cli.Exited status sys out) = None.
Proof. destruct ev; reflexivity. Qed.

(** With a number of arguments other than two, [main] logs the error,
    prints the usage and exits with status 64, and that is the whole run. *)
Lemma usage_exit progname args evs :
  length args <> 2 ->
  main_exec progname args (Cli.Parse :: evs) Cli.Started
  = match evs with
    | [] => Some (Cli.Exited Cli.usageExit [SysExit Cli.usageExit]
                    (usage_error_log args :: Cli.usage progname))
    | _ :: _ => None
    end.
Proof.
  intros Hlen.
  destruct args as [| a [| b [| c args]]]; cbn in Hlen; try lia;
    destruct evs as [| ev evs]; try reflexivity;
    cbn -[Cli.main_step];
    match goal with
    | |- context [Cli.main_step _ _ _ _ _ Cli.Parse Cli.Started] =>
        cbn [Cli.main_step]
    end;
    cbn -[Cli.main_step]; rewrite exited_is_final; reflexivity.
Qed.




End MainFacts.






(** X11: a usage error ends the process before any socket operation.  With
    a number of positional arguments other than two, [main] logs the error,
    prints the usage text and exits with status 64; nothing else happens in
    such a run, in particular [net.Listen] is not called. *)
Theorem usage_error_exits_before_any_socket :
  forall progname args,
    length args <> 2 ->
    (forall evs,
        Part001_main_exec progname args (Cli.Parse :: evs) Cli.Started
        = match evs with
          | [] => Some (Cli.Exited 64 [SysExit 64]
                          (usage_error_log args :: Cli.usage progname))
          | _ :: _ => None
          end)
    /\ (forall evs,
        MainGo_main_exec progname args (Cli.Parse :: evs) Cli.Started
        = match evs with
          | [] => Some (Cli.Exited 64 [SysExit 64]
                          (usage_error_log args :: Cli.usage progname))
          | _ :: _ => None
          end).
Proof.
  intros progname args Hlen. split; intros evs.
  - exact (usage_exit _ _ Part001.TStart Part001.run_step Part001_view
             progname args evs Hlen).
  - exact (usage_exit _ _ MainGo.TStart MainGo_run_under_main MainGo_view
             progname args evs Hlen).
Qed.

Lemma usage_error_exits_before_any_socket_witness :
  length ["/run/relay.sock"] <> 2
  /\ Part001_main_exec "relay" ["/run/relay.sock"] [Cli.Parse] Cli.Started
     = Some (Cli.Exited 64 [SysExit 64]
               (usage_error_log ["/run/relay.sock"] :: Cli.usage "relay")).
Proof.
  assert (Hlen : length ["/run/relay.sock"] <> 2) by (cbn; lia).
  split; [exact Hlen |].
  exact (proj1 (usage_error_exits_before_any_socket "relay" ["/run/relay.sock"]
                  Hlen) []).
Defined.



(** ** Progress *)

(** X13: in part_001 the relay never stands in the way of a running copy:
    while a copy goroutine runs, both connections of its pair are open, so
    any bytes the peer has written can be read and are written through to
    the other side, in order, also after the opposite direction has ended
    (a half-closed pair keeps relaying). *)
Theorem part001_running_copy_can_relay :
  forall (p : Part001.state) k c d n,
    Part001.reachable p -> conns_of p !! k = Some c ->
    get_task d (Part001.sp c) = Copying ->
    0 < n -> n <= length (pending (get_stream d (Part001.sp c))) ->
    exists p' c',
      Part001.step (EvConn k (Part001.Copy d (Chunk n))) p = Some p'
      /\ conns_of p' !! k = Some c'
      /\ delivered (get_stream d (Part001.sp c'))
         = delivered (get_stream d (Part001.sp c))
           ++ take n (pending (get_stream d (Part001.sp c)))
      /\ sent (get_stream d (Part001.sp c')) = sent (get_stream d (Part001.sp c))
      /\ get_task d (Part001.sp c') = Copying.
Proof.
  intros p k c d n Hreach Hk Ht Hpos Hle.
  destruct (Part001_open_while_copying p k c d Hreach Hk Ht) as (_ & Hi & Ho).
  assert (Hcond : ((0 <? n)%nat
                   && (n <=? length (pending (get_stream d (Part001.sp c))))%nat)
                  = true).
  { apply andb_true_intro. split; [apply Nat.ltb_lt | apply Nat.leb_le]; lia. }
  assert (Hcl : src_closed d (Part001.sp c) || dst_closed d (Part001.sp c) = false)
    by (destruct d; cbn; rewrite Hi, Ho; reflexivity).
  eexists. eexists. split.
  { cbn. rewrite Hk. cbn. unfold copy_step. rewrite Ht. cbn [io_Copy_step].
    rewrite Hcl, Hcond. reflexivity. }
  cbn. split.
  { apply list_lookup_insert_eq. eapply lookup_lt_Some. exact Hk. }
  destruct d; cbn in Ht |- *; auto.
Qed.

Lemma part001_running_copy_can_relay_witness :
  Part001.reachable late_bytes
  /\ conns_of late_bytes !! 0 = Some late_bytes_pair
  /\ copy_back (Part001.sp late_bytes_pair) = Finished EndEOF
  /\ get_task Fwd (Part001.sp late_bytes_pair) = Copying
  /\ exists p' c',
      Part001.step (EvConn 0 (Part001.Copy Fwd (Chunk 3))) late_bytes = Some p'
      /\ conns_of p' !! 0 = Some c'
      /\ delivered (get_stream Fwd (Part001.sp c')) = ["a"; "b"; "c"]%byte
      /\ sent (get_stream Fwd (Part001.sp c')) = ["a"; "b"; "c"]%byte
      /\ get_task Fwd (Part001.sp c') = Copying.
Proof.
  assert (Hreach : Part001.reachable late_bytes)
    by (exists client_writes_late; reflexivity).
  split; [exact Hreach |]. split; [reflexivity |]. split; [reflexivity |].
  split; [reflexivity |].
  exact (part001_running_copy_can_relay late_bytes 0 late_bytes_pair Fwd 3
           Hreach eq_refl eq_refl ltac:(lia) ltac:(cbn; lia)).
Defined.

(** X14: in main.go, cancelling the context of [run] closes the listener.
    Once the context is done, by a cancelled parent or by the proxy having
    returned, the goroutine that waits on it can always run: it closes the
    listener, once, and leaves the proxy as it is. *)
Theorem main_go_cancel_closes_listener :
  forall src dst evs sys s,
    MainGo.run_exec src dst evs MainGo.TStart = Some (MainGo.TServing sys s) ->
    MainGo.run_ctx_done s = true -> MainGo.closer_done s = false ->
    exists s',
      MainGo.run_step src dst MainGo.TCloseListener (MainGo.TServing sys s)
      = Some (MainGo.TServing [SysListen (network_of src) src; SysCloseListener] s')
      /\ MainGo.listener_closed s' = true /\ MainGo.closer_done s' = true
      /\ MainGo.prx s' = MainGo.prx s
      /\ MainGo.run_step src dst MainGo.TCloseListener
           (MainGo.TServing [SysListen (network_of src) src; SysCloseListener] s')
         = None.
Proof.
  intros src dst evs sys s Hexec Hctx Hcd.
  pose proof (MainGo_run_ok_exec src dst evs MainGo.TStart _ I Hexec)
    as (_ & _ & Htwg & Hsys & _).
  rewrite Hcd in Htwg, Hsys. subst sys.
  destruct (MainGo.twg s) as [| n] eqn:Hn; [lia |].
  eexists. split.
  { cbn. rewrite Hctx, Hcd, Hn. cbn. reflexivity. }
  cbn. repeat split.
Qed.

Lemma main_go_cancel_closes_listener_witness :
  exists s,
    MainGo.run_exec "127.0.0.1:8000" "/run/relay.sock"
      main_go_cancelled_while_serving MainGo.TStart
    = Some (MainGo.TServing [SysListen "tcp" "127.0.0.1:8000"] s)
    /\ MainGo.run_ctx_done s = true /\ MainGo.closer_done s = false
    /\ exists s',
        MainGo.run_step "127.0.0.1:8000" "/run/relay.sock" MainGo.TCloseListener
          (MainGo.TServing [SysListen "tcp" "127.0.0.1:8000"] s)
        = Some (MainGo.TServing
                  [SysListen (network_of "127.0.0.1:8000") "127.0.0.1:8000";
                   SysCloseListener] s')
        /\ MainGo.listener_closed s' = true.
Proof.
  eexists. split; [reflexivity |]. split; [reflexivity |]. split; [reflexivity |].
  destruct (main_go_cancel_closes_listener "127.0.0.1:8000" "/run/relay.sock"
              main_go_cancelled_while_serving _ _ eq_refl eq_refl eq_refl)
    as (s' & Hstep & Hlc & _).
  exists s'. split; [exact Hstep | exact Hlc].
Defined.
